(** * CompareBranchNode: comparison state and query composition

    A shallow embedding of [src/views/nodes/compareBranchNode.ts].

    The node keeps two mutable fields ([_children], [_compareWith]) and talks
    to three collaborators: the git query service, the persisted workspace
    state and the view's refresh signal.  Methods are modelled in a state
    monad over the pair (node, world); every call that leaves the node is
    recorded in the world's trace, in program order. *)

From stdpp Require Import base option list strings gmap fin_maps.
From Stdlib Require Import ZArith Lia.

Local Open Scope string_scope.
Local Open Scope list_scope.
Local Open Scope Z_scope.

(** ** JavaScript primitives used by the source *)

Module Js.

(** [a ?? b]: the right operand is taken exactly when the left one is
    [undefined] (or [null]). *)
Definition nullish {A} (a : option A) (b : A) : A :=
  match a with Some x => x | None => b end.

(** [a ?? b] where [b] may itself be [undefined]. *)
Definition nullish_opt {A} (a b : option A) : option A :=
  match a with Some x => Some x | None => b end.

(** [a || b] on [string | undefined]: the empty string is falsy. *)
Definition or_string (a : option string) (b : string) : string :=
  match a with
  | Some s => if String.eqb s "" then b else s
  | None => b
  end.

(** [Array.prototype.findIndex]: index of the first element accepted by the
    predicate, [-1] when there is none. *)
Fixpoint findIndex_from {A} (p : A -> bool) (l : list A) (i : Z) : Z :=
  match l with
  | [] => -1
  | x :: l' => if p x then i else findIndex_from p l' (i + 1)
  end.

Definition findIndex {A} (p : A -> bool) (l : list A) : Z :=
  findIndex_from p l 0.

(** [Array.prototype.splice(start, deleteCount, ...items)], the array it
    leaves behind.  A negative [start] counts from the end; both arguments
    are clamped to the array. *)
Definition splice {A} (l : list A) (start deleteCount : Z) (items : list A)
  : list A :=
  let len := Z.of_nat (length l) in
  let s := if start <? 0 then Z.max (len + start) 0 else Z.min start len in
  let d := Z.min (Z.max deleteCount 0) (len - s) in
  take (Z.to_nat s) l ++ items ++ drop (Z.to_nat (s + d)) l.

(** [Array.prototype.push]. *)
Definition push {A} (l : list A) (x : A) : list A := l ++ [x].

End Js.

(** ** Data model *)

(** Modelled from the spec: the comparison-mode enumeration
    [ViewShowBranchComparison] is declared in [configuration], outside the
    source at hand; the spec gives it as "one of {Working, Branch, Tag}".
    The code only ever tests for [Working]. *)
Inductive ViewShowBranchComparison := Working | Branch | Tag.

#[global] Instance ViewShowBranchComparison_eq_dec :
  EqDecision ViewShowBranchComparison.
Proof. solve_decision. Defined.

(** Range notation of a stored comparison: ['..'] or ['...']. *)
Inductive RangeNotation := TwoDot | ThreeDot.

(** [BranchComparison] ([constants]): the compare-with target, as an object
    is at run time: a property that is missing, or holds [undefined], reads
    as [None].  A target built by this file has a [ref] and a [type]. *)
Record BranchComparison := {
  ref : option string;
  notation : option RangeNotation;
  type : option ViewShowBranchComparison;
}.

(** A JavaScript object of type [T]: its address and its fields.  No object
    of this file is mutated after it is built, so the fields travel with the
    address; two values with different addresses are different objects even
    when their fields agree. *)
Record Obj (T : Type) := { addr : positive; fields : T }.
Arguments addr {T} _.
Arguments fields {T} _.

(** A persisted entry: the legacy bare string or a structured target. *)
Inductive StoredComparison :=
| Legacy (s : string)
| Structured (c : Obj BranchComparison).

(** [BranchComparisons]: the persisted object, by its own properties. *)
Abbreviation BranchComparisons := (gmap string StoredComparison).

(** ** The mapping object and its prototype chain *)

(** The prototype of the mapping object.  An object literal, a rest object
    and a mapping read back from storage have [Object.prototype]; line 353
    builds a mapping without prototype; an assignment under the name
    [__proto__] makes the assigned object the prototype. *)
Inductive Prototype :=
| ObjectPrototype
| NullPrototype
| TargetPrototype (c : Obj BranchComparison).

(** What is read off an object that has no [ref], [notation] or [type]. *)
Definition no_fields : BranchComparison :=
  {| ref := None; notation := None; type := None |}.

(** [Object.prototype] and its methods are objects of the realm; they hold
    the first addresses.  None of them has a [ref], a [notation] or a
    [type]. *)
Definition object_prototype : Obj BranchComparison :=
  {| addr := 1%positive; fields := no_fields |}.

Definition object_prototype_methods : list string :=
  [ "constructor"; "__defineGetter__"; "__defineSetter__"; "hasOwnProperty";
    "__lookupGetter__"; "__lookupSetter__"; "isPrototypeOf";
    "propertyIsEnumerable"; "toString"; "valueOf"; "toLocaleString" ].

Fixpoint method_address (name : string) (methods : list string) (a : positive)
  : option positive :=
  match methods with
  | [] => None
  | m :: rest =>
      if String.eqb name m then Some a
      else method_address name rest (Pos.succ a)
  end.

(** The method of [Object.prototype] called [name], if there is one. *)
Definition object_prototype_get (name : string)
  : option (Obj BranchComparison) :=
  (fun a => {| addr := a; fields := no_fields |})
    <$> method_address name object_prototype_methods 2%positive.

(** The first address left to object literals. *)
Definition first_free : positive := 13%positive.

(** The string a range notation is. *)
Definition notation_text (nt : RangeNotation) : string :=
  match nt with TwoDot => ".." | ThreeDot => "..." end.

Section Lookup.

(** The string a comparison mode is at run time; the enumeration's values
    are declared in [configuration], outside the source at hand. *)
Context (mode_value : ViewShowBranchComparison -> string).

(** What a read of [name] finds above the object's own properties.  The
    accessor [__proto__] of [Object.prototype] yields the prototype
    itself. *)
Definition prototype_get (proto : Prototype) (name : string)
  : option StoredComparison :=
  match proto with
  | NullPrototype => None
  | ObjectPrototype =>
      if String.eqb name "__proto__" then Some (Structured object_prototype)
      else Structured <$> object_prototype_get name
  | TargetPrototype c =>
      if String.eqb name "ref" then Legacy <$> ref (fields c)
      else if String.eqb name "notation"
      then (fun nt => Legacy (notation_text nt)) <$> notation (fields c)
      else if String.eqb name "type"
      then (fun t => Legacy (mode_value t)) <$> type (fields c)
      else if String.eqb name "__proto__" then Some (Structured c)
      else Structured <$> object_prototype_get name
  end.

(** [comparisons[name]], read: an own property, else the chain. *)
Definition property_get (proto : Prototype) (own : BranchComparisons)
    (name : string) : option StoredComparison :=
  match own !! name with
  | Some v => Some v
  | None => prototype_get proto name
  end.

End Lookup.

(** Whether [comparisons[name] = ...] reaches the setter of [__proto__]:
    there is no own property of that name and the chain ends in
    [Object.prototype]. *)
Definition sets_prototype (proto : Prototype) (own : BranchComparisons)
    (name : string) : bool :=
  String.eqb name "__proto__"
  && match own !! name with Some _ => false | None => true end
  && match proto with NullPrototype => false | _ => true end.

(** [comparisons[name] = copy]: the own properties and the prototype
    afterwards. *)
Definition property_set (proto : Prototype) (own : BranchComparisons)
    (name : string) (copy : Obj BranchComparison)
  : BranchComparisons * Prototype :=
  if sets_prototype proto own name then (own, TargetPrototype copy)
  else (<[name := Structured copy]> own, proto).

(** The fields of [GitBranch] the node reads. *)
Record GitBranch := {
  branch_id : string;
  branch_name : string;
  branch_ref : string;
  branch_repoPath : string;
  branch_current : bool;
}.

(** Modelled from the spec: a file-status entry of [getDiffStatus]; the
    spec's examples give it as a filename with a status. *)
Record GitFile := { fileName : string; status : string }.

(** Modelled from the spec: the log returned by [getLog],
    [{entries, hasMore, more}]; [more] is optional and yields the next log
    or [undefined]. *)
#[warnings="-register-all"]
Inductive GitLog := {
  commits : list string;
  log_hasMore : bool;
  log_more : option (option Z -> option GitLog);
}.

Record AheadBehind := { count_ahead : Z; count_behind : Z }.

(** ** FileDiffQuery: the working-tree overlay (lines 257-270) *)

(** One iteration of the [for (const wf of workingFiles)] loop. *)
Definition overlay_step (files : list GitFile) (wf : GitFile) : list GitFile :=
  let index :=
    Js.findIndex (fun f => String.eqb (fileName f) (fileName wf)) files in
  if negb (index =? -1) then Js.splice files index 1 [wf]
  else Js.push files wf.

Definition overlay_loop (files workingFiles : list GitFile) : list GitFile :=
  fold_left overlay_step workingFiles files.

(** The [if (workingFiles != null) { ... }] block: the value of [files]
    after it. *)
Definition overlay (files workingFiles : option (list GitFile))
  : option (list GitFile) :=
  match workingFiles with
  | Some wfs =>
      match files with
      | Some fs => Some (overlay_loop fs wfs)
      | None => Some wfs
      end
  | None => files
  end.

(** ** Collaborators *)

(** The pair of references a comparison runs between. *)
Record RangePair := { ref1 : string; ref2 : string }.

(** What [ReferencePicker.show] resolves to. *)
Inductive Pick := PickReference (r : string) | PickCommand.

(** The imported services the node calls.  Git queries are oracles: the
    answer is a function of the arguments.  [createRange] is
    [GitRevision.createRange], [pluralize] is [Strings.pluralize] with its
    optional [zero] text, [repositoryNode_getId] is [RepositoryNode.getId]. *)
Record Env := {
  getAheadBehindCommitCount : string -> list string -> option AheadBehind;
  getMergeBase : string -> string -> string -> bool -> option string;
  getDiffStatus : string -> string -> option (list GitFile);
  getLog : string -> option Z -> string -> option GitLog;
  referencePicker_show : string -> string -> string -> option Pick;
  createRange : string -> string -> RangeNotation -> string;
  pluralize : string -> Z -> option string -> string;
  repositoryNode_getId : string -> string;
}.

(** Calls that leave the node. *)
Inductive Event :=
| GetAheadBehindCommitCount (repoPath : string) (ranges : list string)
| GetMergeBase (repoPath r1 r2 : string) (forkPoint : bool)
| GetDiffStatus (repoPath range : string)
| GetLog (repoPath : string) (limit : option Z) (range : string)
| ReferencePickerShow (repoPath title : string)
| WorkspaceStateUpdate (comparisons : BranchComparisons)
| TriggerNodeChange (node_id : string).

(** ** Children handed to the presentation layer *)

Inductive FilesQuery := GetBehindFilesQuery | GetAheadFilesQuery | GetFilesQuery.
Inductive Direction := Behind | Ahead.

Record CommitsFiles := {
  files_ref1 : string;
  files_ref2 : string;
  files_query : FilesQuery;
}.

(** [query] holds the range given to [getCommitsQuery]. *)
Record CommitsResults := {
  query : string;
  comparison : RangePair;
  direction : Direction;
  files : CommitsFiles;
}.

Record CommitsOptions := {
  options_id : string;
  description : string;
  expand : bool;
}.

Inductive ViewNode :=
| ResultsCommitsNode (repoPath label : string) (results : CommitsResults)
    (options : CommitsOptions)
| ResultsFilesNode (repoPath r1 r2 : string) (q : FilesQuery)
    (expanded : bool).

(** ** Node and world *)

Record CompareBranchNode := {
  uri_repoPath : string;
  branch : GitBranch;
  showComparison : ViewShowBranchComparison;
  root : bool;
  _children : option (list ViewNode);
  _compareWith : option (Obj BranchComparison);
}.

(** [workspaceState] is the value stored under
    [WorkspaceState.BranchComparisons], by its own properties, and
    [workspaceState_prototype] is the prototype of that object (read only
    when there is one): [get] returns the object last given to [update],
    and a mapping that was stored before the session is a plain object; [next_addr] is the address the next object literal
    receives; [trace] lists the calls made, oldest first. *)
Record World := {
  workspaceState : option BranchComparisons;
  workspaceState_prototype : Prototype;
  next_addr : positive;
  trace : list Event;
}.

Definition State : Type := CompareBranchNode * World.

(** ** The method monad *)

Definition M (A : Type) : Type := State -> A * State.

Definition ret {A} (a : A) : M A := fun s => (a, s).

Definition bind {A B} (m : M A) (k : A -> M B) : M B :=
  fun s => let '(a, s') := m s in k a s'.

Declare Scope method_scope.
Delimit Scope method_scope with method.
Notation "'let*' x := m 'in' k" := (bind m (fun x => k))
  (at level 10, x name, m at level 100, k at level 200) : method_scope.
Notation "m ';;;' k" := (bind m (fun _ => k))
  (at level 100, k at level 200, right associativity) : method_scope.
Local Open Scope method_scope.

Definition this : M CompareBranchNode := fun s => (fst s, s).

Definition set_children (c : option (list ViewNode)) : M unit :=
  fun '(n, w) =>
    (tt, ({| uri_repoPath := uri_repoPath n; branch := branch n;
             showComparison := showComparison n; root := root n;
             _children := c; _compareWith := _compareWith n |}, w)).

Definition set_compareWith (c : option (Obj BranchComparison)) : M unit :=
  fun '(n, w) =>
    (tt, ({| uri_repoPath := uri_repoPath n; branch := branch n;
             showComparison := showComparison n; root := root n;
             _children := _children n; _compareWith := c |}, w)).

Definition set_showComparison (t : ViewShowBranchComparison) : M unit :=
  fun '(n, w) =>
    (tt, ({| uri_repoPath := uri_repoPath n; branch := branch n;
             showComparison := t; root := root n;
             _children := _children n; _compareWith := _compareWith n |}, w)).

(** An object literal: a new object at the next address. *)
Definition new {T} (x : T) : M (Obj T) :=
  fun '(n, w) =>
    ({| addr := next_addr w; fields := x |},
     (n, {| workspaceState := workspaceState w;
            workspaceState_prototype := workspaceState_prototype w;
            next_addr := Pos.succ (next_addr w);
            trace := trace w |})).

Definition emit (e : Event) : M unit :=
  fun '(n, w) =>
    (tt, (n, {| workspaceState := workspaceState w;
                workspaceState_prototype := workspaceState_prototype w;
                next_addr := next_addr w;
                trace := trace w ++ [e] |})).

(** [Container.context.workspaceState.get(WorkspaceState.BranchComparisons)]. *)
Definition workspaceState_get : M (option BranchComparisons) :=
  fun s => (workspaceState (snd s), s).

(** The prototype of the object [get] returned. *)
Definition workspaceState_get_prototype : M Prototype :=
  fun s => (workspaceState_prototype (snd s), s).

(** [Container.context.workspaceState.update(..., comparisons)], for an
    object with prototype [proto] and own properties [comparisons]. *)
Definition workspaceState_update (proto : Prototype)
    (comparisons : BranchComparisons) : M unit :=
  fun '(n, w) =>
    (tt, (n, {| workspaceState := Some comparisons;
                workspaceState_prototype := proto;
                next_addr := next_addr w;
                trace := trace w ++ [WorkspaceStateUpdate comparisons] |})).

(** ** CompareBranchNode *)

(** The key of a branch in the persisted mapping (lines 335 and 356):
    [`${this.branch.id}${this.branch.current ? '+current' : ''}`]. *)
Definition comparison_id (b : GitBranch) : string :=
  branch_id b +:+ (if branch_current b then "+current" else "").

(** [this._compareWith?.ref]. *)
Definition compareWith_ref (n : CompareBranchNode) : option string :=
  match _compareWith n with
  | Some c => ref (fields c)
  | None => None
  end.

Definition ahead (n : CompareBranchNode) : RangePair :=
  {| ref1 := Js.or_string (compareWith_ref n) "HEAD";
     ref2 := branch_ref (branch n) |}.

Definition behind (n : CompareBranchNode) : RangePair :=
  {| ref1 := branch_ref (branch n);
     ref2 := Js.or_string (compareWith_ref n) "HEAD" |}.

Definition repoPath (n : CompareBranchNode) : string :=
  branch_repoPath (branch n).

(** [this._compareWith?.type ?? this.showComparison]. *)
Definition comparisonType (n : CompareBranchNode) : ViewShowBranchComparison :=
  Js.nullish (_compareWith n ≫= (fun c => type (fields c)))
    (showComparison n).

Definition compareWithWorkingTree (n : CompareBranchNode) : bool :=
  bool_decide (comparisonType n = Working).

Record FilesQueryResults := {
  label : string;
  result_files : option (list GitFile);
}.

(** The object built by the closure of [getCommitsQuery]; [more] tells
    whether the [more] property was set on it. *)
Record CommitsQueryResults := {
  log : option GitLog;
  hasMore : bool;
  more : bool;
}.

Section Methods.

Context (E : Env).

(** The string a comparison mode is at run time (see [prototype_get]). *)
Context (mode_value : ViewShowBranchComparison -> string).

Definition getId (repoPath name : string) (root : bool) : string :=
  repositoryNode_getId E repoPath +:+ ":compare-branch" +:+ "(" +:+ name
    +:+ ")" +:+ (if root then ":root" else "").

Definition id (n : CompareBranchNode) : string :=
  getId (branch_repoPath (branch n)) (branch_name (branch n)) (root n).

Definition git_getAheadBehindCommitCount (repoPath : string)
    (ranges : list string) : M (option AheadBehind) :=
  emit (GetAheadBehindCommitCount repoPath ranges) ;;;
  ret (getAheadBehindCommitCount E repoPath ranges).

Definition git_getMergeBase (repoPath r1 r2 : string) (forkPoint : bool)
  : M (option string) :=
  emit (GetMergeBase repoPath r1 r2 forkPoint) ;;;
  ret (getMergeBase E repoPath r1 r2 forkPoint).

Definition git_getDiffStatus (repoPath range : string)
  : M (option (list GitFile)) :=
  emit (GetDiffStatus repoPath range) ;;;
  ret (getDiffStatus E repoPath range).

Definition git_getLog (repoPath : string) (limit : option Z) (range : string)
  : M (option GitLog) :=
  emit (GetLog repoPath limit range) ;;;
  ret (getLog E repoPath limit range).

Definition triggerNodeChange : M unit :=
  let* n := this in emit (TriggerNodeChange (id n)).

(** Lines 73-75: the fork-point merge base, else the plain one. *)
Definition mergeBase (repoPath r1 r2 : string) : M (option string) :=
  let* forkPoint := git_getMergeBase repoPath r1 r2 true in
  match forkPoint with
  | Some m => ret (Some m)
  | None => git_getMergeBase repoPath r1 r2 false
  end.

(** Lines 77-134: the three children, from the values computed before. *)
Definition children (n : CompareBranchNode) (cw : Obj BranchComparison)
    (aheadBehindCounts : option AheadBehind) (mergeBase : option string)
  : list ViewNode :=
  let ahead := ahead n in
  let behind := behind n in
  [ ResultsCommitsNode (uri_repoPath n) "Behind"
      {| query := createRange E (ref1 behind) (ref2 behind) TwoDot;
         comparison := behind;
         direction := Behind;
         files :=
           {| files_ref1 :=
                if compareWithWorkingTree n then ""
                else Js.nullish mergeBase (ref1 behind);
              files_ref2 := ref2 behind;
              files_query := GetBehindFilesQuery |} |}
      {| options_id := "behind";
         description :=
           pluralize E "commit"
             (Js.nullish (count_behind <$> aheadBehindCounts) 0) None;
         expand := false |};
    ResultsCommitsNode (uri_repoPath n) "Ahead"
      {| query :=
           createRange E (ref1 ahead)
             (if compareWithWorkingTree n then "" else ref2 ahead) TwoDot;
         comparison := ahead;
         direction := Ahead;
         files :=
           {| files_ref1 := Js.nullish mergeBase (ref1 ahead);
              files_ref2 :=
                if compareWithWorkingTree n then "" else ref2 ahead;
              files_query := GetAheadFilesQuery |} |}
      {| options_id := "ahead";
         description :=
           pluralize E "commit"
             (Js.nullish (count_ahead <$> aheadBehindCounts) 0) None;
         expand := false |};
    ResultsFilesNode (uri_repoPath n)
      (Js.or_string (ref (fields cw)) "HEAD")
      (if compareWithWorkingTree n then "" else branch_ref (branch n))
      GetFilesQuery false ].

Definition getChildren : M (list ViewNode) :=
  let* n := this in
  match _compareWith n with
  | None => ret []
  | Some cw =>
      match _children n with
      | Some cached => ret cached
      | None =>
          let behind := behind n in
          let* aheadBehindCounts :=
            git_getAheadBehindCommitCount (branch_repoPath (branch n))
              [createRange E (ref1 behind) (ref2 behind) ThreeDot] in
          let* mergeBase := mergeBase (repoPath n) (ref1 behind) (ref2 behind) in
          let built := children n cw aheadBehindCounts mergeBase in
          set_children (Some built) ;;;
          ret built
      end
  end.

(** Lines 332-346.  [comparisons?.[id]] reads an own property or one found
    on the prototype chain; whatever is found and is not a string becomes
    the target. *)
Definition loadCompareWith : M unit :=
  let* comparisons := workspaceState_get in
  let* proto := workspaceState_get_prototype in
  let* n := this in
  let id := comparison_id (branch n) in
  let compareWith :=
    comparisons
      ≫= (fun c : BranchComparisons =>
            property_get mode_value proto c id) in
  match compareWith with
  | Some (Legacy s) =>
      let* o := new {| ref := Some s; notation := None;
                       type := Some (showComparison n) |} in
      set_compareWith (Some o)
  | Some (Structured c) => set_compareWith (Some c)
  | None => set_compareWith None
  end.

(** Lines 348-365.  [comparisons] is the stored object or, when there is
    none, [Object.create(null)].  [{ ...compareWith }] is an object literal
    with the fields of [compareWith]; [rest] is an object literal with the
    own properties of [comparisons] but [id]. *)
Definition updateCompareWith (compareWith : option (Obj BranchComparison))
  : M unit :=
  set_compareWith compareWith ;;;
  let* stored := workspaceState_get in
  let* stored_proto := workspaceState_get_prototype in
  let comparisons : BranchComparisons := Js.nullish stored ∅ in
  let proto :=
    match stored with Some _ => stored_proto | None => NullPrototype end in
  let* n := this in
  let id := comparison_id (branch n) in
  match compareWith with
  | Some cw =>
      let* copy := new (fields cw) in
      let assigned := property_set proto comparisons id copy in
      workspaceState_update (snd assigned) (fst assigned)
  | None => workspaceState_update ObjectPrototype (delete id comparisons)
  end.

(** The constructor (lines 27-39). *)
Definition constructor (uri_repoPath : string) (branch : GitBranch)
    (showComparison : ViewShowBranchComparison) (root : bool) (w : World)
  : State :=
  snd (loadCompareWith
         ({| uri_repoPath := uri_repoPath; branch := branch;
             showComparison := showComparison; root := root;
             _children := None; _compareWith := None |}, w)).

(** Lines 182-191. *)
Definition clear : M unit :=
  let* n := this in
  match _compareWith n with
  | None => ret tt
  | Some _ =>
      set_compareWith None ;;;
      updateCompareWith None ;;;
      set_children None ;;;
      triggerNodeChange
  end.

(** Lines 198-203. *)
Definition refresh : M unit :=
  set_children None ;;;
  loadCompareWith.

(** Lines 205-215. *)
Definition setComparisonType (comparisonType : ViewShowBranchComparison)
  : M unit :=
  let* n := this in
  match _compareWith n with
  | Some cw =>
      let* o := new {| ref := ref (fields cw);
                       notation := notation (fields cw);
                       type := Some comparisonType |} in
      updateCompareWith (Some o)
  | None => set_showComparison comparisonType
  end ;;;
  set_children None ;;;
  triggerNodeChange.

(** Lines 225-247. *)
Definition compareWith : M unit :=
  let* n := this in
  let title :=
    "Compare " +:+ branch_name (branch n)
      +:+ (if compareWithWorkingTree n then " (working)" else "")
      +:+ " with" in
  emit (ReferencePickerShow (branch_repoPath (branch n)) title) ;;;
  match referencePicker_show E (branch_repoPath (branch n)) title
          (branch_ref (branch n)) with
  | None | Some PickCommand => ret tt
  | Some (PickReference r) =>
      let* o := new {| ref := Some r; notation := None;
                       type := Some (comparisonType n) |} in
      updateCompareWith (Some o) ;;;
      set_children None ;;;
      triggerNodeChange
  end.

(** Lines 193-196. *)
Definition edit : M unit := compareWith.

Definition files_label (files : option (list GitFile)) : string :=
  pluralize E "file" (Js.nullish (Z.of_nat <$> (length <$> files)) 0)
    (Some "No") +:+ " changed".

(** Lines 249-277. *)
Definition getAheadFilesQuery : M FilesQueryResults :=
  let* n := this in
  let* files :=
    git_getDiffStatus (repoPath n)
      (createRange E (Js.or_string (compareWith_ref n) "HEAD")
         (Js.or_string (Some (branch_ref (branch n))) "HEAD") ThreeDot) in
  let* files :=
    if compareWithWorkingTree n then
      let* workingFiles := git_getDiffStatus (repoPath n) "HEAD" in
      ret (overlay files workingFiles)
    else ret files in
  ret {| label := files_label files; result_files := files |}.

(** Lines 279-289. *)
Definition getBehindFilesQuery : M FilesQueryResults :=
  let* n := this in
  let* files :=
    git_getDiffStatus (uri_repoPath n)
      (createRange E (branch_ref (branch n))
         (Js.or_string (compareWith_ref n) "HEAD") ThreeDot) in
  ret {| label := files_label files; result_files := files |}.

(** Lines 291-312: the closure returned by [getCommitsQuery(range)], applied
    to [limit]. *)
Definition getCommitsQuery (range : string) (limit : option Z)
  : M CommitsQueryResults :=
  let* n := this in
  let* log := git_getLog (uri_repoPath n) limit range in
  let hasMore := Js.nullish (log_hasMore <$> log) true in
  ret {| log := log; hasMore := hasMore; more := hasMore |}.

End Methods.

(** Lines 304-307: the body of [results.more], acting on [results]. *)
Definition more_body (limit : option Z) (results : CommitsQueryResults)
  : CommitsQueryResults :=
  let next :=
    log results ≫= (fun l => log_more l ≫= (fun m => m limit)) in
  let log' := Js.nullish_opt next (log results) in
  {| log := log';
     hasMore := Js.nullish (log_hasMore <$> log') true;
     more := more results |}.

(** [results.more(limit)]: callable only when the property is set. *)
Definition call_more (limit : option Z) (results : CommitsQueryResults)
  : option CommitsQueryResults :=
  if more results then Some (more_body limit results) else None.

(** The entries a result shows: those of its log. *)
Definition entries (results : CommitsQueryResults) : list string :=
  match log results with
  | Some l => commits l
  | None => []
  end.

(** ** Specification-side definitions *)

(** The spec's words for one working-tree entry: "replace the historical
    entry with the same filename if present, else append". *)
Fixpoint replace_or_append (files : list GitFile) (wf : GitFile)
  : list GitFile :=
  match files with
  | [] => [wf]
  | f :: rest =>
      if String.eqb (fileName f) (fileName wf) then wf :: rest
      else f :: replace_or_append rest wf
  end.

(** A log whose continuation, at every depth, returns a log that starts
    with the entries already held. *)
Fixpoint appends (l : GitLog) : Prop :=
  match l with
  | Build_GitLog held _ (Some next) =>
      forall limit,
        match next limit with
        | Some l' => held `prefix_of` commits l' /\ appends l'
        | None => True
        end
  | Build_GitLog _ _ None => True
  end.

(** The log a result holds appends at every depth (vacuous without a log). *)
Definition held_appends (results : CommitsQueryResults) : Prop :=
  match log results with
  | Some l => appends l
  | None => True
  end.



(** [results.more] called once per element of [limits], in order. *)
Definition more_calls (limits : list (option Z)) (results : CommitsQueryResults)
  : CommitsQueryResults :=
  fold_left (fun r limit => more_body limit r) limits results.

(** Every object the node or the store holds was built before: its address
    lies below the next one to be handed out. *)
Definition allocated (s : State) : Prop :=
  (forall c, _compareWith (fst s) = Some c ->
     (addr c < next_addr (snd s))%positive)
  /\ (forall m k c,
        workspaceState (snd s) = Some m -> m !! k = Some (Structured c) ->
        (addr c < next_addr (snd s))%positive).

(** Whether [name] is found on [Object.prototype]: one of its methods, or
    its accessor [__proto__]. *)
Definition inherited_name (name : string) : bool :=
  String.eqb name "__proto__"
  || match object_prototype_get name with Some _ => true | None => false end.

(** Whether [name] is one of the properties of a target. *)
Definition target_property (name : string) : bool :=
  String.eqb name "ref" || String.eqb name "notation"
  || String.eqb name "type".

(** What the stored mapping object inherits under [name]; nothing when
    there is no stored object. *)
Definition stored_inherits (mode_value : ViewShowBranchComparison -> string)
    (w : World) (name : string) : option StoredComparison :=
  match workspaceState w with
  | Some _ => prototype_get mode_value (workspaceState_prototype w) name
  | None => None
  end.



(** A state in which the objects of the realm lie below the first address
    left to object literals, and every object held by the node, the store or
    the store's prototype was built before. *)
Definition well_formed (s : State) : Prop :=
  allocated s
  /\ (first_free <= next_addr (snd s))%positive
  /\ (forall c, workspaceState_prototype (snd s) = TargetPrototype c ->
        (addr c < next_addr (snd s))%positive).

(** The [files.ref1] handed to the commits child of a direction. *)
Fixpoint child_files_ref1 (d : Direction) (cs : list ViewNode)
  : option string :=
  match cs with
  | ResultsCommitsNode _ _ r _ :: rest =>
      match d, direction r with
      | Behind, Behind | Ahead, Ahead => Some (files_ref1 (files r))
      | _, _ => child_files_ref1 d rest
      end
  | _ :: rest => child_files_ref1 d rest
  | [] => None
  end.

(** ** Concrete collaborators and states used to exercise the results *)

Module Examples.

Definition range_text (r1 r2 : string) (nt : RangeNotation) : string :=
  r1 +:+ match nt with TwoDot => ".." | ThreeDot => "..." end +:+ r2.

Definition historical : list GitFile :=
  [ {| fileName := "A"; status := "modified" |};
    {| fileName := "B"; status := "added" |} ].

Definition working : list GitFile :=
  [ {| fileName := "B"; status := "deleted" |};
    {| fileName := "C"; status := "added" |} ].

(** Three pages of a log.  The second page reports [hasMore = false] yet
    still carries a continuation, which finds one more commit. *)
Definition page3 : GitLog :=
  {| commits := ["c1"; "c2"; "c3"]; log_hasMore := false; log_more := None |}.

Definition page2 : GitLog :=
  {| commits := ["c1"; "c2"]; log_hasMore := false;
     log_more := Some (fun _ => Some page3) |}.

Definition page1 : GitLog :=
  {| commits := ["c1"]; log_hasMore := true;
     log_more := Some (fun _ => Some page2) |}.

(** No merge base resolves; the working tree differs from [HEAD]. *)
Definition env : Env :=
  {| getAheadBehindCommitCount := fun _ _ => None;
     getMergeBase := fun _ _ _ _ => None;
     getDiffStatus := fun _ range =>
       if String.eqb range "HEAD" then Some working else Some historical;
     getLog := fun _ _ _ => Some page1;
     referencePicker_show := fun _ _ _ => None;
     createRange := range_text;
     pluralize := fun word _ _ => word;
     repositoryNode_getId := fun path => path |}.

Definition feature : GitBranch :=
  {| branch_id := "repo|heads/feature"; branch_name := "feature";
     branch_ref := "feature"; branch_repoPath := "repo";
     branch_current := true |}.

Definition main_working : Obj BranchComparison :=
  {| addr := 13%positive;
     fields := {| ref := Some "main"; notation := None;
                  type := Some Working |} |}.

(** A node comparing [feature] with [main] in working-tree mode. *)
Definition node : CompareBranchNode :=
  {| uri_repoPath := "repo"; branch := feature; showComparison := Branch;
     root := false; _children := None; _compareWith := Some main_working |}.

Definition unconfigured : CompareBranchNode :=
  {| uri_repoPath := "repo"; branch := feature; showComparison := Branch;
     root := false; _children := None; _compareWith := None |}.

(** A store holding a legacy entry for [feature] and an entry of another
    branch. *)
Definition stored : BranchComparisons :=
  <["repo|heads/feature+current" := Legacy "main"]>
    (<["repo|heads/other" := Legacy "develop"]> ∅).

Definition world : World :=
  {| workspaceState := Some stored;
     workspaceState_prototype := ObjectPrototype;
     next_addr := 14%positive; trace := [] |}.

(** The string of each comparison mode, for the examples. *)
Definition mode_text (t : ViewShowBranchComparison) : string :=
  match t with Working => "working" | Branch => "branch" | Tag => "tag" end.

(** Two branches: [b] checked out, and one whose name ends in [+current]. *)
Definition b_current : GitBranch :=
  {| branch_id := "repo|heads/b"; branch_name := "b"; branch_ref := "b";
     branch_repoPath := "repo"; branch_current := true |}.

Definition b_suffix : GitBranch :=
  {| branch_id := "repo|heads/b+current"; branch_name := "b+current";
     branch_ref := "b+current"; branch_repoPath := "repo";
     branch_current := false |}.

End Examples.

(** ** The tree item (lines 139-180) *)

(** [TreeItemCollapsibleState] of the editor's API. *)
Inductive TreeItemCollapsibleState := CollapsibleNone | Collapsed | Expanded.

(** What [getTreeItem] imports besides [Env]: [GitRevision.shorten] with the
    text it is given for the working tree, the constant
    [ContextValues.CompareBranch], [GlyphChars.Ellipsis], and the string
    value of a comparison mode. *)
Record TreeImports := {
  shorten : option string -> string -> string;
  contextValues_CompareBranch : string;
  glyphChars_Ellipsis : string;
  comparison_value : ViewShowBranchComparison -> string;
}.

Record TreeItemCommand := {
  command_title : string;
  command_name : string;
  command_arguments : list CompareBranchNode;
}.

Record TreeItem := {
  item_label : string;
  item_collapsibleState : TreeItemCollapsibleState;
  item_id : string;
  item_contextValue : string;
  item_command : option TreeItemCommand;
  item_iconPath : string;
  item_tooltip : option string;
}.

Definition getTreeItem (E : Env) (T : TreeImports) (n : CompareBranchNode)
  : TreeItem :=
  let subject :=
    if compareWithWorkingTree n then "Working Tree"
    else branch_name (branch n) in
  let '(label, state, tooltip) :=
    match _compareWith n with
    | None =>
        ("Compare " +:+ subject +:+ " with <branch, tag, or ref>",
         CollapsibleNone,
         Some ("Click to compare " +:+ subject
                 +:+ " with a branch, tag, or ref"))
    | Some cw =>
        ("Compare " +:+ subject +:+ " with "
           +:+ shorten T (ref (fields cw)) "Working Tree",
         Collapsed,
         None)
    end in
  {| item_label := label;
     item_collapsibleState := state;
     item_id := id E n;
     item_contextValue :=
       contextValues_CompareBranch T
         +:+ (if branch_current (branch n) then "+current" else "")
         +:+ "+" +:+ comparison_value T (comparisonType n)
         +:+ (match _compareWith n with None => "" | Some _ => "+comparing" end)
         +:+ (if root n then "+root" else "");
     item_command :=
       match _compareWith n with
       | None =>
           Some {| command_title :=
                     "Compare " +:+ branch_name (branch n)
                       +:+ (if compareWithWorkingTree n then " (working)"
                            else "")
                       +:+ " with" +:+ glyphChars_Ellipsis T;
                   command_name := "gitlens.views.editNode";
                   command_arguments := [n] |}
       | Some _ => None
       end;
     item_iconPath := "git-compare";
     item_tooltip := tooltip |}.

(** The last character of a string. *)
Fixpoint last_char (s : string) : option Ascii.ascii :=
  match s with
  | EmptyString => None
  | String c EmptyString => Some c
  | String _ rest => last_char rest
  end.

(** ** Further states used to exercise the results *)

Module Scenarios.

Definition other : GitBranch :=
  {| branch_id := "repo|heads/other"; branch_name := "other";
     branch_ref := "other"; branch_repoPath := "repo";
     branch_current := false |}.

(** A node for another branch of the same repository. *)
Definition other_node : CompareBranchNode :=
  {| uri_repoPath := "repo"; branch := other; showComparison := Branch;
     root := false; _children := None; _compareWith := None |}.


(** The git service has no log and no status to give. *)
Definition env_silent : Env :=
  {| getAheadBehindCommitCount := fun _ _ => None;
     getMergeBase := fun _ _ _ _ => None;
     getDiffStatus := fun _ _ => None;
     getLog := fun _ _ _ => None;
     referencePicker_show := fun _ _ _ => None;
     createRange := Examples.range_text;
     pluralize := fun word _ _ => word;
     repositoryNode_getId := fun path => path |}.

(** A branch without entry in [Examples.stored]. *)
Definition fresh_node : CompareBranchNode :=
  {| uri_repoPath := "repo"; branch := Examples.b_current;
     showComparison := Branch; root := false; _children := None;
     _compareWith := None |}.

(** A node whose branch id is the name of a method of [Object.prototype]. *)
Definition constructor_node : CompareBranchNode :=
  {| uri_repoPath := "repo";
     branch := {| branch_id := "constructor"; branch_name := "constructor";
                  branch_ref := "constructor"; branch_repoPath := "repo";
                  branch_current := false |};
     showComparison := Branch; root := false; _children := None;
     _compareWith := None |}.


(** Two pages of a conforming log. *)
Definition last_page : GitLog :=
  {| commits := ["c1"; "c2"]; log_hasMore := false; log_more := None |}.

Definition first_page : GitLog :=
  {| commits := ["c1"]; log_hasMore := true;
     log_more := Some (fun _ => Some last_page) |}.

Definition env_paged : Env :=
  {| getAheadBehindCommitCount := getAheadBehindCommitCount Examples.env;
     getMergeBase := getMergeBase Examples.env;
     getDiffStatus := getDiffStatus Examples.env;
     getLog := fun _ _ _ => Some first_page;
     referencePicker_show := referencePicker_show Examples.env;
     createRange := createRange Examples.env;
     pluralize := pluralize Examples.env;
     repositoryNode_getId := repositoryNode_getId Examples.env |}.

End Scenarios.

(** * Results *)

(** ** Arrays *)

Section Arrays.

Context {A : Type} (p : A -> bool).

Lemma findIndex_from_cases (l : list A) (i : Z) :
  0 <= i ->
  (Js.findIndex_from p l i = -1 /\ Forall (fun x => p x = false) l)
  \/ (exists l1 x l2,
        l = l1 ++ x :: l2 /\ Forall (fun y => p y = false) l1 /\ p x = true
        /\ Js.findIndex_from p l i = i + Z.of_nat (length l1)).
Proof.
  revert i. induction l as [|a l IH]; intros i Hi; simpl.
  - left. split; [reflexivity | constructor].
  - destruct (p a) eqn:Hpa.
    + right. exists [], a, l. simpl. repeat split; try done. lia.
    + destruct (IH (i + 1)) as [[Hn Hall] | (l1 & x & l2 & -> & Hall & Hx & Hk)];
        [lia | |].
      * left. split; [exact Hn | by constructor].
      * right. exists (a :: l1), x, l2. simpl.
        repeat split; try done; [by constructor | lia].
Qed.

Lemma splice_replace_at (l1 l2 : list A) (x y : A) :
  Js.splice (l1 ++ x :: l2) (Z.of_nat (length l1)) 1 [y] = l1 ++ y :: l2.
Proof.
  unfold Js.splice. rewrite length_app. simpl length.
  assert ((Z.of_nat (length l1) <? 0) = false) as -> by (apply Z.ltb_ge; lia).
  rewrite Z.min_l by lia.
  replace (Z.min (Z.max 1 0) _) with 1 by lia.
  rewrite Nat2Z.id.
  replace (Z.to_nat (Z.of_nat (length l1) + 1)) with (length l1 + 1)%nat by lia.
  rewrite take_app_length.
  rewrite <- drop_drop, drop_app_length. reflexivity.
Qed.

End Arrays.

(** ** The working-tree overlay *)

(** The loop body, written with [findIndex], [splice] and [push], does what
    the spec's sentence says. *)
Lemma overlay_step_replace_or_append (files : list GitFile) (wf : GitFile) :
  overlay_step files wf = replace_or_append files wf.
Proof.
  unfold overlay_step, Js.findIndex.
  destruct (findIndex_from_cases
              (fun f => String.eqb (fileName f) (fileName wf)) files 0)
    as [[-> Hall] | (l1 & x & l2 & -> & Hall & Hx & ->)]; [lia | |].
  - simpl. unfold Js.push.
    induction Hall as [|f rest Hf _ IH]; simpl; [done |].
    by rewrite Hf, IH.
  - assert ((0 + Z.of_nat (length l1) =? -1) = false) as -> by (apply Z.eqb_neq; lia).
    cbn [negb].
    rewrite Z.add_0_l, splice_replace_at.
    induction Hall as [|f rest Hf _ IH]; simpl.
    + by rewrite Hx.
    + by rewrite Hf, IH.
Qed.

Lemma overlay_loop_replace_or_append (files workingFiles : list GitFile) :
  overlay_loop files workingFiles = fold_left replace_or_append workingFiles files.
Proof.
  unfold overlay_loop. revert files.
  induction workingFiles as [|wf wfs IH]; intros files; simpl; [done |].
  by rewrite overlay_step_replace_or_append, IH.
Qed.

Lemma replace_or_append_untouched (files : list GitFile) (wf f : GitFile) (i : nat) :
  files !! i = Some f -> fileName f <> fileName wf ->
  replace_or_append files wf !! i = Some f.
Proof.
  revert i. induction files as [|g rest IH]; intros i Hi Hne; [done |].
  simpl. destruct (String.eqb_spec (fileName g) (fileName wf)) as [Heq | _].
  - destruct i as [|i]; simpl in *; [| done].
    injection Hi as ->. contradiction.
  - destruct i as [|i]; simpl in *; [done | by apply IH].
Qed.

Lemma replace_or_append_in_place (files : list GitFile) (wf f : GitFile) (i : nat) :
  files !! i = Some f ->
  exists g, replace_or_append files wf !! i = Some g
            /\ fileName g = fileName f /\ (g = f \/ g = wf).
Proof.
  revert i. induction files as [|h rest IH]; intros i Hi; [done |].
  simpl. destruct (String.eqb_spec (fileName h) (fileName wf)) as [Heq | _].
  - destruct i as [|i]; simpl in *.
    + injection Hi as ->. exists wf. auto.
    + exists f. auto.
  - destruct i as [|i]; simpl in *.
    + injection Hi as ->. exists f. auto.
    + by apply IH.
Qed.

Lemma replace_or_append_elem (files : list GitFile) (wf g : GitFile) :
  g ∈ replace_or_append files wf -> g ∈ files \/ g = wf.
Proof.
  induction files as [|h rest IH]; simpl.
  - intros ->%list_elem_of_singleton. by right.
  - destruct (String.eqb (fileName h) (fileName wf)).
    + intros [-> | Hg]%elem_of_cons; [by right | left; by right].
    + intros [-> | Hg]%elem_of_cons; [left; by left |].
      destruct (IH Hg) as [? | ?]; [left; by right | by right].
Qed.

Lemma replace_or_append_holds (files : list GitFile) (wf : GitFile) :
  wf ∈ replace_or_append files wf.
Proof.
  induction files as [|h rest IH]; simpl; [by left |].
  destruct (String.eqb (fileName h) (fileName wf)); [by left | by right].
Qed.

Lemma fold_replace_or_append_untouched (workingFiles files : list GitFile)
    (f : GitFile) (i : nat) :
  files !! i = Some f -> fileName f ∉ fileName <$> workingFiles ->
  fold_left replace_or_append workingFiles files !! i = Some f.
Proof.
  revert files. induction workingFiles as [|wf wfs IH]; intros files Hi Hnot;
    simpl in *; [done |].
  apply not_elem_of_cons in Hnot as [Hne Hnot].
  apply IH; [| done]. by apply replace_or_append_untouched.
Qed.

Lemma fold_replace_or_append_in_place (workingFiles files : list GitFile)
    (f : GitFile) (i : nat) :
  files !! i = Some f ->
  exists g, fold_left replace_or_append workingFiles files !! i = Some g
            /\ fileName g = fileName f.
Proof.
  revert files f. induction workingFiles as [|wf wfs IH]; intros files f Hi;
    simpl; [by exists f |].
  destruct (replace_or_append_in_place files wf f i Hi) as (g & Hg & Hname & _).
  destruct (IH _ _ Hg) as (h & Hh & Hname').
  exists h. split; [done | congruence].
Qed.

Lemma fold_replace_or_append_elem (workingFiles files : list GitFile)
    (g : GitFile) :
  g ∈ fold_left replace_or_append workingFiles files ->
  g ∈ files \/ g ∈ workingFiles.
Proof.
  revert files. induction workingFiles as [|wf wfs IH]; intros files Hg;
    simpl in *; [by left |].
  destruct (IH _ Hg) as [Hin | Hin]; [| right; by right].
  destruct (replace_or_append_elem _ _ _ Hin) as [? | ->];
    [by left | right; by left].
Qed.

Lemma fold_replace_or_append_named (workingFiles files : list GitFile)
    (wf : GitFile) :
  wf ∈ workingFiles ->
  exists g, g ∈ fold_left replace_or_append workingFiles files
            /\ fileName g = fileName wf.
Proof.
  revert files. induction workingFiles as [|wf' wfs IH]; intros files Hin;
    [by apply elem_of_nil in Hin |].
  simpl. apply elem_of_cons in Hin as [-> | Hin]; [| by apply IH].
  pose proof (replace_or_append_holds files wf') as Hheld.
  apply list_elem_of_lookup in Hheld as [i Hi].
  destruct (fold_replace_or_append_in_place wfs _ _ _ Hi) as (g & Hg & Hname).
  exists g. split; [| done]. apply list_elem_of_lookup. by exists i.
Qed.

Section Queries.

Context (E : Env).

(** What [getAheadFilesQuery] returns as [files]: the historical status,
    overlaid with the working tree's in working-tree mode. *)
Lemma getAheadFilesQuery_files (n : CompareBranchNode) (w : World) :
  result_files (fst (getAheadFilesQuery E (n, w))) =
  let historical :=
    getDiffStatus E (repoPath n)
      (createRange E (Js.or_string (compareWith_ref n) "HEAD")
         (Js.or_string (Some (branch_ref (branch n))) "HEAD") ThreeDot) in
  if compareWithWorkingTree n
  then overlay historical (getDiffStatus E (repoPath n) "HEAD")
  else historical.
Proof.
  unfold getAheadFilesQuery, bind, this, git_getDiffStatus, emit, ret, bind.
  cbn. by destruct (compareWithWorkingTree n).
Qed.

(** C2. In working-tree comparison mode the ahead-files query overlays the
    working-tree status on the historical one by filename: each working-tree
    entry replaces the entry of the same filename where it stands, or is
    appended; an entry whose filename the working tree does not touch stays
    as it is, where it is. *)
Theorem getAheadFilesQuery_overlay (n : CompareBranchNode) (w : World)
    (historical workingFiles : list GitFile) :
  compareWithWorkingTree n = true ->
  getDiffStatus E (repoPath n)
    (createRange E (Js.or_string (compareWith_ref n) "HEAD")
       (Js.or_string (Some (branch_ref (branch n))) "HEAD") ThreeDot)
    = Some historical ->
  getDiffStatus E (repoPath n) "HEAD" = Some workingFiles ->
  exists merged,
    result_files (fst (getAheadFilesQuery E (n, w))) = Some merged
    /\ merged = fold_left replace_or_append workingFiles historical
    /\ (forall i f, historical !! i = Some f ->
          fileName f ∉ fileName <$> workingFiles -> merged !! i = Some f)
    /\ (forall i f, historical !! i = Some f ->
          exists g, merged !! i = Some g /\ fileName g = fileName f)
    /\ (forall wf, wf ∈ workingFiles ->
          exists g, g ∈ merged /\ fileName g = fileName wf)
    /\ (forall g, g ∈ merged -> g ∈ historical \/ g ∈ workingFiles).
Proof.
  intros Hmode Hhist Hwork.
  exists (fold_left replace_or_append workingFiles historical).
  split.
  { rewrite getAheadFilesQuery_files. cbv zeta. rewrite Hmode, Hhist, Hwork.
    simpl. by rewrite overlay_loop_replace_or_append. }
  split; [done |].
  split; [intros i f; apply fold_replace_or_append_untouched |].
  split; [intros i f; apply fold_replace_or_append_in_place |].
  split; [intros wf; apply fold_replace_or_append_named |].
  intros g. apply fold_replace_or_append_elem.
Qed.

(** C9. In working-tree mode, a missing historical status with a present
    working-tree status yields exactly the working-tree sequence, and a
    missing working-tree status yields the historical result, present or
    not; the query returns a result in every case. *)
Theorem getAheadFilesQuery_absent (n : CompareBranchNode) (w : World) :
  compareWithWorkingTree n = true ->
  let historical :=
    getDiffStatus E (repoPath n)
      (createRange E (Js.or_string (compareWith_ref n) "HEAD")
         (Js.or_string (Some (branch_ref (branch n))) "HEAD") ThreeDot) in
  let workingFiles := getDiffStatus E (repoPath n) "HEAD" in
  let result := fst (getAheadFilesQuery E (n, w)) in
  (historical = None -> is_Some workingFiles ->
     result_files result = workingFiles)
  /\ (workingFiles = None -> result_files result = historical)
  /\ label result = files_label E (result_files result).
Proof.
  intros Hmode historical workingFiles result.
  assert (result_files result = overlay historical workingFiles) as Hfiles.
  { subst result. rewrite getAheadFilesQuery_files. cbv zeta. by rewrite Hmode. }
  split; [| split].
  - intros Hhist [wfs Hwork]. rewrite Hfiles, Hhist, Hwork. reflexivity.
  - intros Hwork. rewrite Hfiles, Hwork. reflexivity.
  - subst result. unfold getAheadFilesQuery, bind, this, git_getDiffStatus,
      emit, ret, bind. cbn. by destruct (compareWithWorkingTree n).
Qed.

End Queries.

Lemma getAheadFilesQuery_overlay_witness :
  exists merged,
    result_files
      (fst (getAheadFilesQuery Examples.env (Examples.node, Examples.world)))
      = Some merged
    /\ merged = fold_left replace_or_append Examples.working Examples.historical
    /\ (forall i f, Examples.historical !! i = Some f ->
          fileName f ∉ fileName <$> Examples.working -> merged !! i = Some f)
    /\ (forall i f, Examples.historical !! i = Some f ->
          exists g, merged !! i = Some g /\ fileName g = fileName f)
    /\ (forall wf, wf ∈ Examples.working ->
          exists g, g ∈ merged /\ fileName g = fileName wf)
    /\ (forall g, g ∈ merged -> g ∈ Examples.historical \/ g ∈ Examples.working).
Proof.
  apply (getAheadFilesQuery_overlay Examples.env Examples.node Examples.world
           Examples.historical Examples.working); reflexivity.
Defined.

(** The spec's example: [{A, modified}, {B, added}] overlaid with
    [{B, deleted}, {C, added}]. *)
Example getAheadFilesQuery_overlay_example :
  result_files
    (fst (getAheadFilesQuery Examples.env (Examples.node, Examples.world)))
  = Some [ {| fileName := "A"; status := "modified" |};
           {| fileName := "B"; status := "deleted" |};
           {| fileName := "C"; status := "added" |} ].
Proof. reflexivity. Qed.

(** With duplicate filenames on the historical side only the first entry of
    that name is replaced. *)
Example overlay_first_match_only :
  overlay_loop
    [ {| fileName := "A"; status := "modified" |};
      {| fileName := "A"; status := "renamed" |} ]
    [ {| fileName := "A"; status := "deleted" |} ]
  = [ {| fileName := "A"; status := "deleted" |};
      {| fileName := "A"; status := "renamed" |} ].
Proof. reflexivity. Qed.

Lemma getAheadFilesQuery_absent_witness :
  let E :=
    {| getAheadBehindCommitCount := fun _ _ => None;
       getMergeBase := fun _ _ _ _ => None;
       getDiffStatus := fun _ range =>
         if String.eqb range "HEAD" then Some Examples.working else None;
       getLog := fun _ _ _ => None;
       referencePicker_show := fun _ _ _ => None;
       createRange := Examples.range_text;
       pluralize := fun word _ _ => word;
       repositoryNode_getId := fun path => path |} in
  result_files (fst (getAheadFilesQuery E (Examples.node, Examples.world)))
  = Some Examples.working.
Proof.
  intros E.
  apply (getAheadFilesQuery_absent E Examples.node Examples.world eq_refl);
    [reflexivity | by eexists].
Defined.

(** ** Range pairs *)

(** C4. The ahead and behind pairs are inverses of each other; the
    compare-with side is "HEAD" when no target is set or its ref is missing
    or empty, the target's ref otherwise, and the other side is the branch's
    ref. *)
Theorem ahead_behind_inverse (n : CompareBranchNode) :
  ref1 (ahead n) = ref2 (behind n)
  /\ ref2 (ahead n) = ref1 (behind n)
  /\ ref2 (ahead n) = branch_ref (branch n)
  /\ ref1 (ahead n) =
       match _compareWith n with
       | None => "HEAD"
       | Some c =>
           match ref (fields c) with
           | None => "HEAD"
           | Some s => if decide (s = "") then "HEAD" else s
           end
       end.
Proof.
  repeat split. unfold ahead, compareWith_ref, Js.or_string. simpl.
  destruct (_compareWith n) as [c |]; [| done].
  destruct (ref (fields c)) as [s |]; [| done].
  destruct (String.eqb_spec s ""); case_decide; done.
Qed.

Example ahead_unconfigured :
  ahead Examples.unconfigured = {| ref1 := "HEAD"; ref2 := "feature" |}
  /\ behind Examples.unconfigured = {| ref1 := "feature"; ref2 := "HEAD" |}.
Proof. split; reflexivity. Qed.

(** ** Branch identity *)

Lemma append_cons (c : Ascii.ascii) (s t : string) :
  String c s +:+ t = String c (s +:+ t).
Proof. reflexivity. Qed.

Lemma append_empty_r (s : string) : s +:+ "" = s.
Proof.
  induction s as [|c s IH]; [done |]. by rewrite append_cons, IH.
Qed.

Lemma length_append (s t : string) :
  String.length (s +:+ t) = (String.length s + String.length t)%nat.
Proof.
  induction s as [|c s IH]; [done |].
  rewrite append_cons. simpl. by rewrite IH.
Qed.

Lemma append_inj_r (s1 s2 t : string) : s1 +:+ t = s2 +:+ t -> s1 = s2.
Proof.
  revert s2. induction s1 as [|c s1 IH]; intros [|d s2] Heq.
  - done.
  - apply (f_equal String.length) in Heq.
    rewrite append_cons, !length_append in Heq. simpl in Heq.
    rewrite length_append in Heq. lia.
  - apply (f_equal String.length) in Heq.
    rewrite append_cons, !length_append in Heq. simpl in Heq.
    rewrite length_append in Heq. lia.
  - rewrite !append_cons in Heq. injection Heq as -> Heq.
    by rewrite (IH _ Heq).
Qed.

(** C5, as the code has it. The key tells current from not-current for one
    branch id, and is injective on branch ids among branches with the same
    current flag; across flags two keys agree exactly when the not-current
    branch's id is the current branch's id followed by "+current". *)
Theorem comparison_id_collisions (b1 b2 : GitBranch) :
  (branch_id b1 = branch_id b2 -> branch_current b1 <> branch_current b2 ->
     comparison_id b1 <> comparison_id b2)
  /\ (branch_current b1 = branch_current b2 ->
        comparison_id b1 = comparison_id b2 -> branch_id b1 = branch_id b2)
  /\ (branch_current b1 = true -> branch_current b2 = false ->
        (comparison_id b1 = comparison_id b2
         <-> branch_id b2 = branch_id b1 +:+ "+current")).
Proof.
  unfold comparison_id. split; [| split].
  - intros Hid Hflag Hkey. rewrite Hid in Hkey.
    apply (inj (String.app _)) in Hkey.
    destruct (branch_current b1), (branch_current b2); done.
  - intros -> Hkey. by apply append_inj_r in Hkey.
  - intros -> ->. cbv iota. rewrite append_empty_r.
    split; intros H; by rewrite H.
Qed.

(** C5 as stated fails: a checked-out branch [b] and a branch named
    [b+current] that is not checked out are different branches with one
    key. *)
Lemma comparison_id_collision :
  branch_id Examples.b_current <> branch_id Examples.b_suffix
  /\ comparison_id Examples.b_current = comparison_id Examples.b_suffix.
Proof. split; [discriminate | reflexivity]. Qed.

(** ** Paged commit results *)

Lemma appends_next (l l' : GitLog) (next : option Z -> option GitLog)
    (limit : option Z) :
  log_more l = Some next -> next limit = Some l' -> appends l ->
  commits l `prefix_of` commits l' /\ appends l'.
Proof.
  destruct l as [held h [m |]]; simpl; [| done].
  intros [= ->] Hnext Happ. specialize (Happ limit). by rewrite Hnext in Happ.
Qed.

Lemma more_body_more (limit : option Z) (r : CommitsQueryResults) :
  more (more_body limit r) = more r.
Proof. reflexivity. Qed.

Lemma more_body_hasMore (limit : option Z) (r : CommitsQueryResults) :
  hasMore (more_body limit r)
  = Js.nullish (log_hasMore <$> log (more_body limit r)) true.
Proof. reflexivity. Qed.

Lemma more_body_prefix (limit : option Z) (r : CommitsQueryResults) :
  held_appends r ->
  entries r `prefix_of` entries (more_body limit r)
  /\ held_appends (more_body limit r).
Proof.
  unfold held_appends, entries, more_body. simpl.
  destruct (log r) as [l |]; simpl; [| done].
  destruct (log_more l) as [next |] eqn:Hmore; simpl; [| done].
  destruct (next limit) as [l' |] eqn:Hnext; simpl; [| done].
  intros Happ. by apply (appends_next l l' next limit).
Qed.

Lemma more_calls_prefix (limits : list (option Z)) (r : CommitsQueryResults) :
  held_appends r ->
  entries r `prefix_of` entries (more_calls limits r)
  /\ held_appends (more_calls limits r).
Proof.
  unfold more_calls. revert r.
  induction limits as [|limit limits IH]; intros r Happ; simpl; [done |].
  destruct (more_body_prefix limit r Happ) as [Hpre Happ'].
  destruct (IH _ Happ') as [Hpre' Happ''].
  split; [by etrans | done].
Qed.

Lemma more_calls_more (limits : list (option Z)) (r : CommitsQueryResults) :
  more (more_calls limits r) = more r.
Proof.
  unfold more_calls. revert r.
  induction limits as [|limit limits IH]; intros r; simpl; [done |].
  by rewrite IH.
Qed.

Lemma more_calls_hasMore (limits : list (option Z)) (r : CommitsQueryResults) :
  hasMore r = Js.nullish (log_hasMore <$> log r) true ->
  hasMore (more_calls limits r)
  = Js.nullish (log_hasMore <$> log (more_calls limits r)) true.
Proof.
  unfold more_calls. revert r.
  induction limits as [|limit limits IH]; intros r Hr; simpl; [done |].
  apply IH, more_body_hasMore.
Qed.

Section Paging.

Context (E : Env).

(** What paging does for any log, conforming or not.  The result of a
    commits query holds the log of the first fetch; its [more] is set exactly when that result's [hasMore]
    is true and stays as it was set.  After any number of calls, [hasMore]
    is that of the held log (true without a log); a further call replaces
    the held log with what the held log's own [more] returns and keeps it
    when there is no such continuation or it returns nothing, in which case
    the result does not change.  A result whose first [hasMore] is false has
    no [more] to call.  When the service's log appends at every depth, the
    entries held before a call are a prefix of those held after it. *)
Theorem getCommitsQuery_more (n : CompareBranchNode) (w : World)
    (range : string) (limit : option Z) (limits : list (option Z))
    (next_limit : option Z) :
  let fetched := getLog E (uri_repoPath n) limit range in
  let first := fst (getCommitsQuery E range limit (n, w)) in
  let results := more_calls limits first in
  let continuation :=
    log results ≫= (fun l => log_more l ≫= (fun m => m next_limit)) in
  log first = fetched
  /\ hasMore first = Js.nullish (log_hasMore <$> fetched) true
  /\ more results = hasMore first
  /\ hasMore results = Js.nullish (log_hasMore <$> log results) true
  /\ log (more_body next_limit results)
     = Js.nullish_opt continuation (log results)
  /\ (continuation = None -> more_body next_limit results = results)
  /\ (hasMore first = false -> call_more next_limit results = None)
  /\ (match fetched with Some l => appends l | None => True end ->
        entries first `prefix_of` entries results
        /\ entries results `prefix_of` entries (more_body next_limit results)).
Proof.
  intros fetched first results continuation.
  assert (first = {| log := fetched;
                     hasMore := Js.nullish (log_hasMore <$> fetched) true;
                     more := Js.nullish (log_hasMore <$> fetched) true |})
    as Hfirst by reflexivity.
  assert (more results = hasMore first) as Hmore.
  { subst results. rewrite more_calls_more. by rewrite Hfirst. }
  assert (hasMore results = Js.nullish (log_hasMore <$> log results) true)
    as Hhas.
  { subst results. apply more_calls_hasMore. by rewrite Hfirst. }
  split; [by rewrite Hfirst |].
  split; [by rewrite Hfirst |].
  split; [done |].
  split; [done |].
  split; [done |].
  split.
  { intros Hnone. unfold more_body. fold continuation. rewrite Hnone. simpl.
    rewrite <- Hhas. by destruct results. }
  split.
  { intros Hfalse. unfold call_more. by rewrite Hmore, Hfalse. }
  intros Happ.
  assert (held_appends first) as Hheld by (by rewrite Hfirst).
  destruct (more_calls_prefix limits first Hheld) as [Hpre Hheld'].
  split; [done |]. by apply more_body_prefix.
Qed.

End Paging.

(** The example log appends at every depth, so paging through it keeps what
    was fetched. *)
Lemma getCommitsQuery_more_appends :
  let first :=
    fst (getCommitsQuery Examples.env "main..feature" (Some 1)
           (Examples.node, Examples.world)) in
  entries first `prefix_of` entries (more_calls [Some 1] first)
  /\ entries (more_calls [Some 1] first)
       `prefix_of` entries (more_body (Some 1) (more_calls [Some 1] first)).
Proof.
  intros first.
  apply (getCommitsQuery_more Examples.env Examples.node Examples.world
           "main..feature" (Some 1) [Some 1] (Some 1)).
  simpl. intros _. split; [by exists ["c2"] |].
  intros _. split; [by exists ["c3"] | exact I].
Defined.

(** With a log that does not conform ([hasMore] false, yet a [more] of its
    own), [more] is still there after [hasMore] came to false, and a further
    call changes the entries. *)
Lemma more_after_hasMore_false :
  exists first second third,
    first = fst (getCommitsQuery Examples.env "main..feature" (Some 1)
                   (Examples.node, Examples.world))
    /\ call_more (Some 1) first = Some second
    /\ hasMore second = false
    /\ call_more (Some 1) second = Some third
    /\ entries second = ["c1"; "c2"]
    /\ entries third = ["c1"; "c2"; "c3"]
    /\ entries third <> entries second.
Proof.
  eexists _, _, _. repeat split; try reflexivity. discriminate.
Qed.

(** ** Paging through a conforming log *)





Section ConformingPaging.

Context (E : Env).


End ConformingPaging.


(** On the example the second call is a no-op: the entries stay [c1; c2]. *)
Example getCommitsQuery_paging_example :
  let first :=
    fst (getCommitsQuery Scenarios.env_paged "main..feature" (Some 1)
           (Examples.node, Examples.world)) in
  entries first = ["c1"]
  /\ call_more (Some 1) first = Some (more_calls [Some 1] first)
  /\ hasMore (more_calls [Some 1] first) = false
  /\ entries (more_calls [Some 1] first) = ["c1"; "c2"]
  /\ more_calls [Some 1; Some 1] first = more_calls [Some 1] first.
Proof. repeat split. Qed.

(** ** The persisted store *)

Ltac run_method :=
  unfold bind, ret, this, set_compareWith, set_children, set_showComparison,
    new, emit, workspaceState_get, workspaceState_get_prototype,
    workspaceState_update;
  cbn [fst snd].

Lemma object_prototype_get_inherited (name : string) :
  inherited_name name = false -> object_prototype_get name = None.
Proof.
  unfold inherited_name. intros [_ H]%orb_false_iff.
  by destruct (object_prototype_get name).
Qed.

(** On [Object.prototype] only inherited names are found. *)
Lemma prototype_get_object (mode_value : ViewShowBranchComparison -> string)
    (name : string) :
  inherited_name name = false ->
  prototype_get mode_value ObjectPrototype name = None.
Proof.
  intros Hname. pose proof Hname as Hn. unfold inherited_name in Hn.
  apply orb_false_iff in Hn as [Hproto _].
  unfold prototype_get. rewrite Hproto.
  by rewrite object_prototype_get_inherited.
Qed.

(** A name that is neither inherited nor a property of a target is found on
    no prototype. *)
Lemma prototype_get_ordinary (mode_value : ViewShowBranchComparison -> string)
    (proto : Prototype) (name : string) :
  inherited_name name = false -> target_property name = false ->
  prototype_get mode_value proto name = None.
Proof.
  intros Hname Htarget. destruct proto as [| | c]; [| done |].
  - by apply prototype_get_object.
  - pose proof Hname as Hn. unfold inherited_name in Hn.
    apply orb_false_iff in Hn as [Hproto _].
    unfold target_property in Htarget.
    apply orb_false_iff in Htarget as [[Href Hnot]%orb_false_iff Htype].
    unfold prototype_get. rewrite Href, Hnot, Htype, Hproto.
    by rewrite object_prototype_get_inherited.
Qed.

Lemma sets_prototype_inherited (proto : Prototype) (own : BranchComparisons)
    (name : string) :
  String.eqb name "__proto__" = false -> sets_prototype proto own name = false.
Proof. unfold sets_prototype. by intros ->. Qed.

Section Store.

Context (mode_value : ViewShowBranchComparison -> string).

(** C8, as the code has it. Loading reads the branch's key off the persisted
    mapping.  A legacy bare string [s] is turned into a new target [{ref: s,
    notation: undefined, type: <the node's default>}], a structured entry is
    taken as it is, and a missing entry (or a missing mapping) gives
    [undefined] when the mapping object inherits nothing under the key.
    Loading writes nothing. *)
Theorem loadCompareWith_normalizes (n : CompareBranchNode) (w : World) :
  let entry :=
    workspaceState w
      ≫= (fun c : BranchComparisons => c !! comparison_id (branch n)) in
  (entry = None ->
     stored_inherits mode_value w (comparison_id (branch n)) = None) ->
  let after := snd (loadCompareWith mode_value (n, w)) in
  match entry with
  | Some (Legacy s) =>
      exists o, _compareWith (fst after) = Some o
        /\ fields o = {| ref := Some s; notation := None;
                         type := Some (showComparison n) |}
        /\ addr o = next_addr w
  | Some (Structured c) => _compareWith (fst after) = Some c
  | None => _compareWith (fst after) = None
  end
  /\ workspaceState (snd after) = workspaceState w
  /\ trace (snd after) = trace w
  /\ _children (fst after) = _children n
  /\ branch (fst after) = branch n
  /\ showComparison (fst after) = showComparison n.
Proof.
  intros entry Hplain after. subst entry after.
  unfold loadCompareWith, stored_inherits, property_get in *. run_method.
  destruct (workspaceState w) as [m |] eqn:Hw; cbn in *; rewrite ?Hw;
    [| by repeat split].
  destruct (m !! comparison_id (branch n)) as [[s | c] |]; cbn.
  - repeat split; try done. by eexists.
  - by repeat split.
  - rewrite (Hplain eq_refl). by repeat split.
Qed.


End Store.

Example loadCompareWith_legacy_main :
  _compareWith
    (fst (snd (loadCompareWith Examples.mode_text
                 (Examples.unconfigured, Examples.world))))
  = Some {| addr := 14%positive;
            fields := {| ref := Some "main"; notation := None;
                         type := Some Branch |} |}.
Proof. reflexivity. Qed.

Lemma loadCompareWith_normalizes_witness :
  _compareWith
    (fst (snd (loadCompareWith Examples.mode_text
                 (Scenarios.fresh_node, Examples.world))))
  = None.
Proof.
  apply (loadCompareWith_normalizes Examples.mode_text Scenarios.fresh_node
           Examples.world).
  reflexivity.
Defined.


(** C8 as stated fails: a branch whose key is [constructor] has no entry in
    the mapping, and loading makes the method of that name the target. *)
Lemma loadCompareWith_inherited :
  Examples.stored !! comparison_id (branch Scenarios.constructor_node) = None
  /\ _compareWith
       (fst (snd (loadCompareWith Examples.mode_text
                    (Scenarios.constructor_node, Examples.world))))
     = Some {| addr := 2%positive; fields := no_fields |}.
Proof. split; reflexivity. Qed.






(** The objects held after an update were all built before its end. *)
Lemma updateCompareWith_allocated (n : CompareBranchNode) (w : World)
    (target : option (Obj BranchComparison)) :
  allocated (n, w) ->
  (forall t, target = Some t -> (addr t < next_addr w)%positive) ->
  allocated (snd (updateCompareWith target (n, w))).
Proof.
  intros [Hnode Hstore] Htarget.
  assert (forall m k c,
            Js.nullish (workspaceState w) ∅ = m ->
            m !! k = Some (Structured c) ->
            (addr c < next_addr w)%positive) as Hold.
  { intros m k c <- Hk.
    destruct (workspaceState w) as [m |] eqn:Hw; cbn in Hk.
    - by specialize (Hstore m k c Hw Hk).
    - by rewrite lookup_empty in Hk. }
  unfold updateCompareWith. run_method.
  destruct target as [t |]; cbn; split; cbn.
  - intros c [= <-]. specialize (Htarget _ eq_refl). lia.
  - intros m k c [= <-] Hk. unfold property_set in Hk.
    destruct (sets_prototype _ _ _); cbn in Hk;
      [specialize (Hold _ k c eq_refl Hk); lia |].
    rewrite lookup_insert in Hk.
    case_decide; [injection Hk as <-; cbn; lia |].
    specialize (Hold _ k c eq_refl Hk). lia.
  - done.
  - intros m k c [= <-] Hk. rewrite lookup_delete in Hk.
    case_decide; [done |].
    exact (Hold _ k c eq_refl Hk).
Qed.

Section Orchestrator.

Context (E : Env).

(** C6. [clear] on a node without a target returns at once: node and world
    (store, trace) are what they were.  On a node with a target it drops the
    target and the cached children, writes the mapping without this
    branch's entry, and then signals a refresh. *)
Theorem clear_noop_or_remove (n : CompareBranchNode) (w : World) :
  match _compareWith n with
  | None => clear E (n, w) = (tt, (n, w))
  | Some _ =>
      let after := snd (clear E (n, w)) in
      let remaining : BranchComparisons :=
        delete (comparison_id (branch n)) (Js.nullish (workspaceState w) ∅) in
      _compareWith (fst after) = None
      /\ _children (fst after) = None
      /\ workspaceState (snd after) = Some remaining
      /\ remaining !! comparison_id (branch n) = None
      /\ (forall k, k <> comparison_id (branch n) ->
            remaining !! k = Js.nullish (workspaceState w) ∅ !! k)
      /\ trace (snd after)
         = trace w ++ [WorkspaceStateUpdate remaining; TriggerNodeChange (id E n)]
  end.
Proof.
  unfold clear, updateCompareWith, triggerNodeChange. run_method.
  destruct (_compareWith n) as [c |]; cbn; [| reflexivity].
  split; [reflexivity |]. split; [reflexivity |]. split; [reflexivity |].
  split; [apply lookup_delete_eq |].
  split; [intros k Hk; by rewrite lookup_delete_ne |].
  by rewrite <- app_assoc.
Qed.

Example clear_unconfigured :
  clear Examples.env (Examples.unconfigured, Examples.world)
  = (tt, (Examples.unconfigured, Examples.world)).
Proof. reflexivity. Qed.

Lemma mergeBase_run (rp r1 r2 : string) (n : CompareBranchNode) (w : World) :
  mergeBase E rp r1 r2 (n, w) =
  (Js.nullish_opt (getMergeBase E rp r1 r2 true) (getMergeBase E rp r1 r2 false),
   (n, {| workspaceState := workspaceState w;
          workspaceState_prototype := workspaceState_prototype w;
          next_addr := next_addr w;
          trace :=
            trace w ++ GetMergeBase rp r1 r2 true
              :: match getMergeBase E rp r1 r2 true with
                 | Some _ => []
                 | None => [GetMergeBase rp r1 r2 false]
                 end |})).
Proof.
  unfold mergeBase, git_getMergeBase. run_method.
  destruct (getMergeBase E rp r1 r2 true); cbn; [reflexivity |].
  by rewrite <- app_assoc.
Qed.

(** C3, as the code has it. [getChildren] asks for the fork-point merge
    base first and asks for the plain one exactly when the first answer is
    [undefined]; the merge base is the first defined answer.  The ahead
    child's files [ref1] is the merge base, or [ahead.ref1] when there is
    none.  The behind child's files [ref1] is the empty string when the node
    compares with the working tree, and otherwise the merge base, or
    [behind.ref1] when there is none. *)
Theorem getChildren_mergeBase (n : CompareBranchNode) (w : World)
    (cw : Obj BranchComparison) :
  _compareWith n = Some cw -> _children n = None ->
  let b := behind n in
  let forkPoint := getMergeBase E (repoPath n) (ref1 b) (ref2 b) true in
  let plain := getMergeBase E (repoPath n) (ref1 b) (ref2 b) false in
  let resolved := Js.nullish_opt forkPoint plain in
  let counted :=
    GetAheadBehindCommitCount (branch_repoPath (branch n))
      [createRange E (ref1 b) (ref2 b) ThreeDot] in
  let result := getChildren E (n, w) in
  trace (snd (snd result))
  = trace w ++ [counted; GetMergeBase (repoPath n) (ref1 b) (ref2 b) true]
      ++ match forkPoint with
         | Some _ => []
         | None => [GetMergeBase (repoPath n) (ref1 b) (ref2 b) false]
         end
  /\ _children (fst (snd result)) = Some (fst result)
  /\ child_files_ref1 Ahead (fst result)
     = Some (Js.nullish resolved (ref1 (ahead n)))
  /\ child_files_ref1 Behind (fst result)
     = Some (if compareWithWorkingTree n then ""
             else Js.nullish resolved (ref1 b))
  /\ (forkPoint = None -> plain = None ->
        child_files_ref1 Ahead (fst result) = Some (ref1 (ahead n))
        /\ child_files_ref1 Behind (fst result)
           = Some (if compareWithWorkingTree n then "" else ref1 b)).
Proof.
  intros Hcw Hch b forkPoint plain resolved counted result.
  assert (result =
    (children E n cw
       (getAheadBehindCommitCount E (branch_repoPath (branch n))
          [createRange E (ref1 b) (ref2 b) ThreeDot]) resolved,
     ({| uri_repoPath := uri_repoPath n; branch := branch n;
         showComparison := showComparison n; root := root n;
         _children :=
           Some (children E n cw
                   (getAheadBehindCommitCount E (branch_repoPath (branch n))
                      [createRange E (ref1 b) (ref2 b) ThreeDot]) resolved);
         _compareWith := _compareWith n |},
      {| workspaceState := workspaceState w;
         workspaceState_prototype := workspaceState_prototype w;
         next_addr := next_addr w;
         trace :=
           (trace w ++ [counted])
             ++ GetMergeBase (repoPath n) (ref1 b) (ref2 b) true
             :: match forkPoint with
                | Some _ => []
                | None => [GetMergeBase (repoPath n) (ref1 b) (ref2 b) false]
                end |}))) as ->.
  { subst result. unfold getChildren, bind at 1, this. cbn [fst snd].
    rewrite Hcw, Hch. unfold git_getAheadBehindCommitCount.
    unfold bind at 1. unfold bind at 1. unfold emit, ret at 1.
    unfold bind at 1. rewrite mergeBase_run. run_method.
    by rewrite ?Hcw. }
  cbn [fst snd trace _children].
  split; [by rewrite <- app_assoc |].
  split; [reflexivity |].
  split; [reflexivity |].
  split; [reflexivity |].
  intros Hfork Hplain. subst resolved. rewrite Hfork, Hplain. by split.
Qed.

End Orchestrator.

Lemma getChildren_mergeBase_witness :
  child_files_ref1 Ahead
    (fst (getChildren Examples.env (Examples.node, Examples.world)))
  = Some "main".
Proof.
  apply (getChildren_mergeBase Examples.env Examples.node Examples.world
           Examples.main_working eq_refl eq_refl); reflexivity.
Defined.

(** C3 as stated fails for the behind child: with no merge base and a
    working-tree comparison its files [ref1] is the empty string, not
    [behind.ref1]. *)
Lemma behind_files_ref1_working_tree :
  getMergeBase Examples.env (repoPath Examples.node)
    (ref1 (behind Examples.node)) (ref2 (behind Examples.node)) true = None
  /\ getMergeBase Examples.env (repoPath Examples.node)
       (ref1 (behind Examples.node)) (ref2 (behind Examples.node)) false = None
  /\ ref1 (behind Examples.node) = "feature"
  /\ child_files_ref1 Behind
       (fst (getChildren Examples.env (Examples.node, Examples.world)))
     = Some "".
Proof. repeat split. Qed.

(** ** Addresses stay below the allocator

    Every method keeps [well_formed]: the objects of the realm lie below the
    first free address, and every object the node, the store or the store's
    prototype holds was built before. *)

Lemma object_prototype_get_addr (name : string) (o : Obj BranchComparison) :
  object_prototype_get name = Some o -> (addr o < first_free)%positive.
Proof.
  unfold object_prototype_get, object_prototype_methods, first_free.
  cbn [method_address].
  repeat (destruct (String.eqb name _);
          [intros [= <-]; cbn; lia |]).
  discriminate.
Qed.

Lemma prototype_get_addr (mode_value : ViewShowBranchComparison -> string)
    (proto : Prototype) (name : string) (o : Obj BranchComparison)
    (bound : positive) :
  (first_free <= bound)%positive ->
  (forall c, proto = TargetPrototype c -> (addr c < bound)%positive) ->
  prototype_get mode_value proto name = Some (Structured o) ->
  (addr o < bound)%positive.
Proof.
  intros Hfree Hproto. unfold first_free in Hfree.
  destruct proto as [| | c]; unfold prototype_get; [| done |].
  - destruct (String.eqb name "__proto__"); [intros [= <-]; cbn; lia |].
    destruct (object_prototype_get name) as [m |] eqn:Hm; [| done].
    intros [= <-]. apply object_prototype_get_addr in Hm.
    unfold first_free in Hm. lia.
  - destruct (String.eqb name "ref");
      [destruct (ref (fields c)); cbn; intros ?; simplify_eq |].
    destruct (String.eqb name "notation");
      [destruct (notation (fields c)); cbn; intros ?; simplify_eq |].
    destruct (String.eqb name "type");
      [destruct (type (fields c)); cbn; intros ?; simplify_eq |].
    destruct (String.eqb name "__proto__");
      [intros [= <-]; by apply Hproto |].
    destruct (object_prototype_get name) as [m |] eqn:Hm; [| done].
    intros [= <-]. apply object_prototype_get_addr in Hm.
    unfold first_free in Hm. lia.
Qed.

Section Allocation.

Context (E : Env) (mode_value : ViewShowBranchComparison -> string).

Lemma loadCompareWith_well_formed (n : CompareBranchNode) (w : World) :
  well_formed (n, w) -> well_formed (snd (loadCompareWith mode_value (n, w))).
Proof.
  intros ([Hnode Hstore] & Hfree & Hproto); cbn in *.
  unfold loadCompareWith, property_get. run_method.
  destruct (workspaceState w) as [m |] eqn:Hw; cbn;
    [| by repeat split; cbn; rewrite ?Hw].
  assert (well_formed
            ({| uri_repoPath := uri_repoPath n; branch := branch n;
                showComparison := showComparison n; root := root n;
                _children := _children n; _compareWith := None |}, w))
    as Hnone.
  { repeat split; cbn; try (by eauto).
    intros m0 k c Hm0. rewrite Hw in Hm0. by eauto. }
  assert (forall s,
            well_formed
              ({| uri_repoPath := uri_repoPath n; branch := branch n;
                  showComparison := showComparison n; root := root n;
                  _children := _children n;
                  _compareWith :=
                    Some {| addr := next_addr w;
                            fields := {| ref := Some s; notation := None;
                                         type := Some (showComparison n) |} |}
                |},
               {| workspaceState := workspaceState w;
                  workspaceState_prototype := workspaceState_prototype w;
                  next_addr := Pos.succ (next_addr w);
                  trace := trace w |})) as Hlegacy.
  { intros s. repeat split; cbn.
    - intros c [= <-]. cbn. lia.
    - intros m' k c Hm' Hk. rewrite Hw in Hm'.
      specialize (Hstore m' k c Hm' Hk). lia.
    - lia.
    - intros c Hc. specialize (Hproto c Hc). lia. }
  assert (forall c, (addr c < next_addr w)%positive ->
            well_formed
              ({| uri_repoPath := uri_repoPath n; branch := branch n;
                  showComparison := showComparison n; root := root n;
                  _children := _children n; _compareWith := Some c |}, w))
    as Hheld.
  { intros c Hc. repeat split; cbn; try (by eauto).
    - by intros ? [= <-].
    - intros m0 k c0 Hm0. rewrite Hw in Hm0. by eauto. }
  destruct (m !! comparison_id (branch n)) as [[s | c] |] eqn:Hm; cbn.
  - apply Hlegacy.
  - apply Hheld. by apply (Hstore m _ c eq_refl Hm).
  - destruct (prototype_get mode_value (workspaceState_prototype w) _)
      as [[s | c] |] eqn:Hget; cbn.
    + apply Hlegacy.
    + apply Hheld. by eapply prototype_get_addr.
    + apply Hnone.
Qed.

Lemma updateCompareWith_well_formed (n : CompareBranchNode) (w : World)
    (target : option (Obj BranchComparison)) :
  well_formed (n, w) ->
  (forall t, target = Some t -> (addr t < next_addr w)%positive) ->
  well_formed (snd (updateCompareWith target (n, w))).
Proof.
  intros (Halloc & Hfree & Hproto) Htarget; cbn in Hfree, Hproto.
  split; [by apply updateCompareWith_allocated |].
  unfold updateCompareWith, property_set. run_method.
  destruct target as [t |]; cbn; [| by split].
  split; [lia |].
  destruct (sets_prototype _ _ _); cbn.
  - intros c [= <-]. cbn. lia.
  - intros c Hc. destruct (workspaceState w); [| done].
    specialize (Hproto c Hc). lia.
Qed.

Lemma refresh_well_formed (n : CompareBranchNode) (w : World) :
  well_formed (n, w) -> well_formed (snd (refresh mode_value (n, w))).
Proof.
  intros Hwf. unfold refresh, bind, set_children.
  apply loadCompareWith_well_formed.
  destruct Hwf as ([Hnode Hstore] & Hfree & Hproto). by repeat split.
Qed.

Lemma constructor_well_formed (path : string) (b : GitBranch)
    (t : ViewShowBranchComparison) (r : bool) (w : World) :
  (forall n, _compareWith n = None -> well_formed (n, w)) ->
  well_formed (constructor mode_value path b t r w).
Proof.
  intros Hw. unfold constructor. by apply loadCompareWith_well_formed, Hw.
Qed.

Lemma clear_well_formed (n : CompareBranchNode) (w : World) :
  well_formed (n, w) -> well_formed (snd (clear E (n, w))).
Proof.
  intros Hwf. unfold clear, bind at 1, this. cbn [fst snd].
  destruct (_compareWith n) as [c |] eqn:Hc; [| done].
  assert (well_formed
            (snd (updateCompareWith None
                    (snd (set_compareWith None (n, w)))))) as Hupdated.
  { apply updateCompareWith_well_formed; [| done].
    destruct Hwf as ([Hnode Hstore] & Hfree & Hproto). by repeat split. }
  unfold updateCompareWith, triggerNodeChange in *.
  revert Hupdated. run_method. cbn.
  intros ([Hnode Hstore] & Hfree & Hproto). by repeat split.
Qed.

Lemma setComparisonType_well_formed (n : CompareBranchNode) (w : World)
    (t : ViewShowBranchComparison) :
  well_formed (n, w) -> well_formed (snd (setComparisonType E t (n, w))).
Proof.
  intros Hwf. unfold setComparisonType, bind at 1, this. cbn [fst snd].
  destruct (_compareWith n) as [cw |] eqn:Hcw.
  - assert (well_formed
              (snd (updateCompareWith
                      (Some (fst (new {| ref := ref (fields cw);
                                         notation := notation (fields cw);
                                         type := Some t |} (n, w))))
                      (snd (new {| ref := ref (fields cw);
                                   notation := notation (fields cw);
                                   type := Some t |} (n, w)))))) as Hupdated.
    { apply updateCompareWith_well_formed; [| intros ? [= <-]; cbn; lia].
      destruct Hwf as ([Hnode Hstore] & Hfree & Hproto); cbn in *.
      repeat split; cbn.
      - intros c Hc. specialize (Hnode c Hc). lia.
      - intros m k c Hm Hk. specialize (Hstore m k c Hm Hk). lia.
      - lia.
      - intros c Hc. specialize (Hproto c Hc). lia. }
    unfold updateCompareWith, triggerNodeChange in *.
    revert Hupdated. run_method. cbn.
    intros ([Hnode Hstore] & Hfree & Hproto). by repeat split.
  - unfold triggerNodeChange. run_method. cbn.
    destruct Hwf as ([Hnode Hstore] & Hfree & Hproto); cbn in *.
    by repeat split.
Qed.

End Allocation.

(** * Further properties of the node *)

(** ** Children *)

Section Children.

Context (E : Env).

(** The state [getChildren] leaves when it has to build the children. *)
Lemma getChildren_run (n : CompareBranchNode) (w : World)
    (cw : Obj BranchComparison) :
  _compareWith n = Some cw -> _children n = None ->
  exists built w',
    getChildren E (n, w)
    = (built,
       ({| uri_repoPath := uri_repoPath n; branch := branch n;
           showComparison := showComparison n; root := root n;
           _children := Some built; _compareWith := Some cw |}, w'))
    /\ length built = 3%nat
    /\ workspaceState w' = workspaceState w
    /\ next_addr w' = next_addr w.
Proof.
  intros Hcw Hch. unfold getChildren, bind at 1, this. cbn [fst snd].
  rewrite Hcw, Hch. unfold git_getAheadBehindCommitCount.
  unfold bind at 1. unfold bind at 1. unfold emit, ret at 1.
  unfold bind at 1. rewrite mergeBase_run. run_method. rewrite Hcw.
  eexists _, _. split; [reflexivity |]. by repeat split.
Qed.

(** A second [getChildren] returns what the first one returned and does
    nothing else: no git call, no change of node or world.  This holds for a
    node without target (no children), with cached children, and for one
    whose children the first call had to build. *)
Theorem getChildren_memoized (n : CompareBranchNode) (w : World) :
  getChildren E (snd (getChildren E (n, w)))
  = (fst (getChildren E (n, w)), snd (getChildren E (n, w))).
Proof.
  destruct (_compareWith n) as [cw |] eqn:Hcw.
  - destruct (_children n) as [cached |] eqn:Hch.
    + assert (getChildren E (n, w) = (cached, (n, w))) as Hrun.
      { unfold getChildren. run_method. by rewrite Hcw, Hch. }
      rewrite Hrun. cbn [fst snd]. exact Hrun.
    + destruct (getChildren_run n w cw Hcw Hch) as (built & w' & -> & _).
      cbn [fst snd]. unfold getChildren. run_method. reflexivity.
  - assert (getChildren E (n, w) = ([], (n, w))) as Hrun.
    { unfold getChildren. run_method. by rewrite Hcw. }
    rewrite Hrun. cbn [fst snd]. exact Hrun.
Qed.

(** The tree item and the children agree: an item that cannot be expanded
    belongs to a node whose [getChildren] is empty and without effect, and
    it carries a tooltip and the command [gitlens.views.editNode] with the
    node itself as its only argument; an item that can be expanded belongs
    to a node whose [getChildren] builds three children, and it carries
    neither.  The item is never created expanded, and its id is the
    node's. *)
Theorem getTreeItem_collapsible (T : TreeImports) (n : CompareBranchNode)
    (w : World) :
  item_id (getTreeItem E T n) = id E n
  /\ match item_collapsibleState (getTreeItem E T n) with
     | CollapsibleNone =>
         getChildren E (n, w) = ([], (n, w))
         /\ (exists c,
               item_command (getTreeItem E T n) = Some c
               /\ command_name c = "gitlens.views.editNode"
               /\ command_arguments c = [n])
         /\ is_Some (item_tooltip (getTreeItem E T n))
     | Collapsed =>
         (_children n = None -> length (fst (getChildren E (n, w))) = 3%nat)
         /\ item_command (getTreeItem E T n) = None
         /\ item_tooltip (getTreeItem E T n) = None
     | Expanded => False
     end.
Proof.
  unfold getTreeItem.
  destruct (_compareWith n) as [cw |] eqn:Hcw; cbn -[getChildren];
    (split; [reflexivity |]).
  - split; [| done]. intros Hch.
    by destruct (getChildren_run n w cw Hcw Hch) as (built & w' & -> & Hlen & _).
  - split; [| split; [by eexists | done]].
    unfold getChildren. run_method. by rewrite Hcw.
Qed.

End Children.

(** ** Editing the comparison *)

Section Editing.

Context (E : Env).


(** A comparison type chosen while a target is set lives in the target
    only: after [clear] the node is back to the default it was built with. *)
Theorem setComparisonType_then_clear (n : CompareBranchNode) (w : World)
    (t : ViewShowBranchComparison) :
  is_Some (_compareWith n) ->
  comparisonType (fst (snd (clear E (snd (setComparisonType E t (n, w))))))
  = showComparison n.
Proof.
  intros [cw Hcw].
  unfold setComparisonType, clear, updateCompareWith, triggerNodeChange.
  run_method. rewrite Hcw. reflexivity.
Qed.


(** [clear] twice is [clear] once: the second call finds no target and does
    nothing. *)
Theorem clear_idempotent (n : CompareBranchNode) (w : World) :
  clear E (snd (clear E (n, w))) = (tt, snd (clear E (n, w))).
Proof.
  unfold clear at 2 3, updateCompareWith, triggerNodeChange. run_method.
  destruct (_compareWith n) as [cw |] eqn:Hcw; cbn [fst snd].
  - reflexivity.
  - unfold clear. run_method. by rewrite Hcw.
Qed.

End Editing.


Lemma setComparisonType_then_clear_witness :
  comparisonType
    (fst (snd (clear Examples.env
                 (snd (setComparisonType Examples.env Tag
                         (Examples.node, Examples.world))))))
  = Branch.
Proof.
  apply (setComparisonType_then_clear Examples.env Examples.node
           Examples.world Tag).
  by eexists.
Defined.


(** ** Store round trips *)

Section RoundTrips.

Context (mode_value : ViewShowBranchComparison -> string).

(** What was saved is what is loaded, for a key that is not the name of a
    member of [Object.prototype].  After [updateCompareWith(target)] by one
    node, loading by any node with the same key (the node itself after a
    refresh, or a node built later for the same branch) gives a target with
    the saved fields, and gives [undefined] when the update removed the
    entry. *)
Theorem updateCompareWith_then_load (n n' : CompareBranchNode) (w : World)
    (target : option (Obj BranchComparison)) :
  comparison_id (branch n') = comparison_id (branch n) ->
  inherited_name (comparison_id (branch n)) = false ->
  let w' := snd (snd (updateCompareWith target (n, w))) in
  fields <$> _compareWith (fst (snd (loadCompareWith mode_value (n', w'))))
  = fields <$> target.
Proof.
  intros Hkey Hname.
  pose proof Hname as Hproto. unfold inherited_name in Hproto.
  apply orb_false_iff in Hproto as [Hproto _].
  unfold updateCompareWith, loadCompareWith, property_get, property_set.
  run_method. rewrite Hkey.
  destruct target as [t |]; cbn -[prototype_get sets_prototype].
  - rewrite sets_prototype_inherited by done. cbn -[prototype_get].
    by rewrite lookup_insert_eq.
  - rewrite lookup_delete_eq. by rewrite prototype_get_object.
Qed.

(** Nodes with different keys do not see each other's updates, when the
    reading node's key is neither the name of a member of
    [Object.prototype] nor that of a property of a target: what the node
    loads after another node's [updateCompareWith] has the fields of what it
    would have loaded before. *)
Theorem updateCompareWith_other_key (n n' : CompareBranchNode) (w : World)
    (target : option (Obj BranchComparison)) :
  comparison_id (branch n') <> comparison_id (branch n) ->
  inherited_name (comparison_id (branch n')) = false ->
  target_property (comparison_id (branch n')) = false ->
  let w' := snd (snd (updateCompareWith target (n, w))) in
  fields <$> _compareWith (fst (snd (loadCompareWith mode_value (n', w'))))
  = fields <$> _compareWith (fst (snd (loadCompareWith mode_value (n', w)))).
Proof.
  intros Hkey Hname Htarget.
  assert (forall (own : BranchComparisons) proto,
            property_get mode_value proto own (comparison_id (branch n'))
            = own !! comparison_id (branch n')) as Hget.
  { intros own proto. unfold property_get.
    destruct (own !! _); [done |]. by rewrite prototype_get_ordinary. }
  assert (Js.nullish (workspaceState w) ∅ !! comparison_id (branch n')
          = workspaceState w
              ≫= (fun c : BranchComparisons =>
                    property_get mode_value (workspaceState_prototype w) c
                      (comparison_id (branch n')))) as Hsame.
  { destruct (workspaceState w); cbn; [by rewrite Hget |].
    by rewrite lookup_empty. }
  unfold updateCompareWith, loadCompareWith, property_set. run_method.
  rewrite <- Hsame. destruct target as [t |]; cbn; rewrite Hget.
  - destruct (sets_prototype _ _ _); cbn.
    + by destruct (_ !! comparison_id (branch n')) as [[s | c] |].
    + rewrite lookup_insert_ne by done.
      by destruct (_ !! comparison_id (branch n')) as [[s | c] |].
  - rewrite lookup_delete_ne by done.
    by destruct (_ !! comparison_id (branch n')) as [[s | c] |].
Qed.

End RoundTrips.

Lemma updateCompareWith_then_load_witness :
  fields <$> _compareWith
    (fst (snd (loadCompareWith Examples.mode_text
                 (Examples.unconfigured,
                  snd (snd (updateCompareWith (Some Examples.main_working)
                              (Examples.node, Examples.world)))))))
  = Some {| ref := Some "main"; notation := None; type := Some Working |}.
Proof.
  exact (updateCompareWith_then_load Examples.mode_text Examples.node
           Examples.unconfigured Examples.world (Some Examples.main_working)
           eq_refl eq_refl).
Defined.

Lemma updateCompareWith_other_key_witness :
  fields <$> _compareWith
    (fst (snd (loadCompareWith Examples.mode_text
                 (Scenarios.other_node,
                  snd (snd (updateCompareWith None
                              (Examples.node, Examples.world)))))))
  = Some {| ref := Some "develop"; notation := None; type := Some Branch |}.
Proof.
  rewrite (updateCompareWith_other_key Examples.mode_text Examples.node
             Scenarios.other_node Examples.world None);
    [reflexivity | discriminate | reflexivity | reflexivity].
Defined.

(** Without the condition on the key the round trip fails: after the entry
    of the branch [constructor] is removed, loading finds the method of that
    name. *)
Example updateCompareWith_then_load_inherited :
  is_Some
    (_compareWith
       (fst (snd (loadCompareWith Examples.mode_text
                    (Scenarios.constructor_node,
                     snd (snd (updateCompareWith None
                                 (Scenarios.constructor_node,
                                  Examples.world)))))))).
Proof. by eexists. Qed.

Section Durable.

Context (E : Env) (mode_value : ViewShowBranchComparison -> string).

(** A cleared comparison stays cleared, for a key that is not the name of a
    member of [Object.prototype]: after [clear] on a node with a target, any
    node with the same key loads [undefined] (the node itself on [refresh],
    or a node built later for the branch). *)
Theorem clear_then_load (n n' : CompareBranchNode) (w : World) :
  is_Some (_compareWith n) ->
  comparison_id (branch n') = comparison_id (branch n) ->
  inherited_name (comparison_id (branch n)) = false ->
  _compareWith
    (fst (snd (loadCompareWith mode_value (n', snd (snd (clear E (n, w)))))))
  = None.
Proof.
  intros [cw Hcw] Hkey Hname.
  unfold clear, updateCompareWith, triggerNodeChange, loadCompareWith,
    property_get.
  run_method. rewrite Hcw, Hkey. cbn -[prototype_get].
  rewrite lookup_delete_eq. by rewrite prototype_get_object.
Qed.

(** A legacy string entry is replaced by a structured one at the first
    change of comparison type: loading [s] and then setting type [t] leaves
    [{ref: s, notation: undefined, type: t}] under the branch's key. *)
Theorem legacy_entry_upgraded (n : CompareBranchNode) (w : World)
    (s : string) (t : ViewShowBranchComparison) :
  workspaceState w
    ≫= (fun c : BranchComparisons => c !! comparison_id (branch n))
  = Some (Legacy s) ->
  let loaded := snd (loadCompareWith mode_value (n, w)) in
  let after := snd (setComparisonType E t loaded) in
  exists copy,
    workspaceState (snd after)
      ≫= (fun c : BranchComparisons => c !! comparison_id (branch n))
    = Some (Structured copy)
    /\ fields copy = {| ref := Some s; notation := None; type := Some t |}.
Proof.
  intros Hentry.
  destruct (workspaceState w) as [m |] eqn:Hw; [| done]. cbn in Hentry.
  unfold loadCompareWith, setComparisonType, updateCompareWith,
    triggerNodeChange, property_get, property_set, sets_prototype.
  run_method. rewrite Hw. cbn. rewrite Hentry. cbn. rewrite Hw. cbn.
  rewrite Hentry. rewrite andb_false_r. cbn.
  eexists. split; [apply lookup_insert_eq | reflexivity].
Qed.

End Durable.

Lemma clear_then_load_witness :
  _compareWith
    (fst (snd (loadCompareWith Examples.mode_text
                 (Examples.unconfigured,
                  snd (snd (clear Examples.env
                              (Examples.node, Examples.world)))))))
  = None.
Proof.
  apply (clear_then_load Examples.env Examples.mode_text Examples.node
           Examples.unconfigured Examples.world);
    [by eexists | reflexivity | reflexivity].
Defined.

Lemma legacy_entry_upgraded_witness :
  exists copy,
    workspaceState
      (snd (snd (setComparisonType Examples.env Working
                   (snd (loadCompareWith Examples.mode_text
                           (Examples.unconfigured, Examples.world))))))
      ≫= (fun c : BranchComparisons =>
            c !! comparison_id (branch Examples.unconfigured))
    = Some (Structured copy)
    /\ fields copy
       = {| ref := Some "main"; notation := None; type := Some Working |}.
Proof.
  exact (legacy_entry_upgraded Examples.env Examples.mode_text
           Examples.unconfigured Examples.world "main" Working eq_refl).
Defined.

(** ** Range pairs and node ids *)

(** The compare-with side of a pair is never the empty string: a missing
    target and a target with the empty ref (the working tree) both read as
    "HEAD". *)
Theorem compare_side_not_empty (n : CompareBranchNode) :
  ref1 (ahead n) <> "" /\ ref2 (behind n) <> "".
Proof.
  assert (Js.or_string (compareWith_ref n) "HEAD" <> "") as Hside.
  { unfold Js.or_string. destruct (compareWith_ref n) as [s |]; [| done].
    by destruct (String.eqb_spec s ""). }
  by split.
Qed.

Lemma last_char_append (s t : string) :
  t <> "" -> last_char (s +:+ t) = last_char t.
Proof.
  intros Ht. induction s as [| a s IH]; [done |].
  rewrite append_cons. rewrite <- IH.
  destruct s as [| b s]; [| by rewrite append_cons].
  by destruct t.
Qed.

Section NodeIds.

Context (E : Env).

(** Within one repository the node id tells nodes apart: two ids agree only
    for the same branch name and the same root flag. *)
Theorem getId_injective (path name1 name2 : string) (root1 root2 : bool) :
  getId E path name1 root1 = getId E path name2 root2 ->
  name1 = name2 /\ root1 = root2.
Proof.
  unfold getId. intros Heq.
  do 3 apply (inj (String.app _)) in Heq.
  destruct root1, root2.
  - split; [| done]. by apply append_inj_r in Heq.
  - apply (f_equal last_char) in Heq.
    rewrite (last_char_append name1), (last_char_append name2) in Heq by done.
    vm_compute in Heq. discriminate Heq.
  - apply (f_equal last_char) in Heq.
    rewrite (last_char_append name1), (last_char_append name2) in Heq by done.
    vm_compute in Heq. discriminate Heq.
  - split; [| done]. by apply append_inj_r in Heq.
Qed.

End NodeIds.

Lemma getId_injective_witness : "feature" = "feature" /\ false = false.
Proof.
  exact (getId_injective Examples.env "repo" "feature" "feature" false false
           eq_refl).
Defined.

(** ** More on the working-tree overlay *)

Lemma replace_or_append_names (files : list GitFile) (wf : GitFile) :
  fileName <$> replace_or_append files wf
  = if decide (fileName wf ∈ fileName <$> files) then fileName <$> files
    else (fileName <$> files) ++ [fileName wf].
Proof.
  induction files as [| f rest IH].
  - destruct (decide _) as [Hin | _]; [by apply elem_of_nil in Hin | done].
  - cbn [replace_or_append].
    destruct (String.eqb_spec (fileName f) (fileName wf)) as [Heq | Hne].
    + rewrite decide_True by (rewrite fmap_cons, Heq; by left).
      by rewrite !fmap_cons, Heq.
    + rewrite !fmap_cons, IH.
      destruct (decide (fileName wf ∈ fileName <$> rest)) as [Hin | Hout].
      * by rewrite decide_True by (by right).
      * rewrite decide_False; [done |].
        intros [? | ?]%elem_of_cons; congruence.
Qed.

Lemma replace_or_append_length (files : list GitFile) (wf : GitFile) :
  (length files <= length (replace_or_append files wf) <= S (length files))%nat.
Proof.
  pose proof (f_equal length (replace_or_append_names files wf)) as Hlen.
  rewrite !length_fmap in Hlen. case_decide.
  - rewrite length_fmap in Hlen. lia.
  - rewrite length_app, length_fmap in Hlen. simpl in Hlen. lia.
Qed.

Lemma replace_or_append_NoDup (files : list GitFile) (wf : GitFile) :
  NoDup (fileName <$> files) ->
  NoDup (fileName <$> replace_or_append files wf).
Proof.
  intros Hnd. rewrite replace_or_append_names. case_decide as Hin; [done |].
  apply NoDup_app. split; [done |]. split; [| apply NoDup_singleton].
  intros a Ha ->%list_elem_of_singleton. contradiction.
Qed.

(** The overlay never shrinks the historical list and adds at most one
    entry per working-tree entry; with no working-tree entry it leaves the
    list as it is. *)
Theorem overlay_loop_length (files workingFiles : list GitFile) :
  (length files <= length (overlay_loop files workingFiles)
   <= length files + length workingFiles)%nat
  /\ overlay_loop files [] = files.
Proof.
  split; [| reflexivity].
  rewrite overlay_loop_replace_or_append. revert files.
  induction workingFiles as [| wf wfs IH]; intros files; simpl; [lia |].
  specialize (IH (replace_or_append files wf)).
  pose proof (replace_or_append_length files wf). lia.
Qed.

(** The overlay keeps filenames unique: when no two historical entries
    share a filename, no two merged entries do, whatever the working tree
    reports (repeated filenames included). *)
Theorem overlay_loop_NoDup (files workingFiles : list GitFile) :
  NoDup (fileName <$> files) ->
  NoDup (fileName <$> overlay_loop files workingFiles).
Proof.
  rewrite overlay_loop_replace_or_append. revert files.
  induction workingFiles as [| wf wfs IH]; intros files Hnd; simpl; [done |].
  by apply IH, replace_or_append_NoDup.
Qed.

Lemma overlay_loop_NoDup_witness :
  NoDup (fileName <$> overlay_loop Examples.historical Examples.working).
Proof.
  apply overlay_loop_NoDup.
  apply (NoDup_cons_2 "A"); [| apply NoDup_singleton].
  intros Hin%list_elem_of_singleton. discriminate Hin.
Defined.

Lemma replace_or_append_absorb (files : list GitFile) (w1 w2 : GitFile) :
  fileName w1 = fileName w2 ->
  replace_or_append (replace_or_append files w1) w2
  = replace_or_append files w2.
Proof.
  intros Hname. induction files as [| f rest IH]; simpl.
  - by destruct (String.eqb_spec (fileName w1) (fileName w2)).
  - destruct (String.eqb_spec (fileName f) (fileName w1)) as [H1 | H1];
      destruct (String.eqb_spec (fileName f) (fileName w2)) as [H2 | H2];
      try congruence; simpl.
    + by destruct (String.eqb_spec (fileName w1) (fileName w2)).
    + destruct (String.eqb_spec (fileName f) (fileName w2)); [done |].
      by rewrite IH.
Qed.

Lemma replace_or_append_comm (files : list GitFile) (w1 w2 : GitFile) :
  fileName w1 <> fileName w2 ->
  fileName w1 ∈ fileName <$> files ->
  replace_or_append (replace_or_append files w1) w2
  = replace_or_append (replace_or_append files w2) w1.
Proof.
  intros Hne. induction files as [| f rest IH]; intros Hin;
    [by apply elem_of_nil in Hin |].
  simpl in Hin. simpl.
  destruct (String.eqb_spec (fileName f) (fileName w1)) as [H1 | H1];
    destruct (String.eqb_spec (fileName f) (fileName w2)) as [H2 | H2];
    simpl.
  - congruence.
  - destruct (String.eqb_spec (fileName w1) (fileName w2)); [done |].
    destruct (String.eqb_spec (fileName f) (fileName w1)); done.
  - destruct (String.eqb_spec (fileName f) (fileName w2)); [| done].
    destruct (String.eqb_spec (fileName w2) (fileName w1)); [congruence |].
    done.
  - destruct (String.eqb_spec (fileName f) (fileName w2)); [done |].
    destruct (String.eqb_spec (fileName f) (fileName w1)); [done |].
    f_equal. apply IH.
    apply elem_of_cons in Hin as [? | ?]; [congruence | done].
Qed.

Lemma replace_or_append_name_kept (files : list GitFile) (wf : GitFile)
    (a : string) :
  a ∈ fileName <$> files -> a ∈ fileName <$> replace_or_append files wf.
Proof.
  intros Hin. rewrite replace_or_append_names.
  case_decide; [done |]. apply elem_of_app. by left.
Qed.

Lemma fold_replace_or_append_names (workingFiles files : list GitFile)
    (a : string) :
  a ∈ fileName <$> workingFiles ->
  a ∈ fileName <$> fold_left replace_or_append workingFiles files.
Proof.
  intros (wf & -> & Hwf)%list_elem_of_fmap.
  destruct (fold_replace_or_append_named workingFiles files wf Hwf)
    as (g & Hg & <-).
  apply list_elem_of_fmap. by exists g.
Qed.

(** A working-tree entry applied first is overwritten when the list that
    follows has an entry of its filename. *)
Lemma fold_replace_or_append_overwritten (workingFiles files : list GitFile)
    (w : GitFile) :
  fileName w ∈ fileName <$> files ->
  fileName w ∈ fileName <$> workingFiles ->
  fold_left replace_or_append workingFiles (replace_or_append files w)
  = fold_left replace_or_append workingFiles files.
Proof.
  revert files. induction workingFiles as [| x xs IH]; intros files Hl Hws;
    [by apply elem_of_nil in Hws |].
  simpl. destruct (decide (fileName w = fileName x)) as [Heq | Hne].
  - by rewrite replace_or_append_absorb.
  - rewrite replace_or_append_comm by done.
    apply IH; [by apply replace_or_append_name_kept |].
    simpl in Hws. apply elem_of_cons in Hws as [? | ?]; [congruence | done].
Qed.

(** A working-tree entry whose filename the following list does not touch
    can be applied after it instead, when the list appends nothing. *)
Lemma fold_replace_or_append_delayed (workingFiles files : list GitFile)
    (x : GitFile) :
  (forall w, w ∈ workingFiles -> fileName w ∈ fileName <$> files) ->
  fileName x ∉ fileName <$> workingFiles ->
  fold_left replace_or_append workingFiles (replace_or_append files x)
  = replace_or_append (fold_left replace_or_append workingFiles files) x.
Proof.
  revert files. induction workingFiles as [| y ys IH]; intros files Hall Hx;
    [done |].
  simpl. simpl in Hx. apply not_elem_of_cons in Hx as [Hne Hx].
  rewrite <- (replace_or_append_comm files y x);
    [| congruence | apply Hall; by left].
  apply IH; [| done].
  intros w Hw. apply replace_or_append_name_kept, Hall. by right.
Qed.

(** Overlaying the same working-tree status a second time changes nothing.
    The loop writes into the array it was given, so this is what happens
    when the same array comes back for another query. *)
Theorem overlay_loop_idempotent (files workingFiles : list GitFile) :
  overlay_loop (overlay_loop files workingFiles) workingFiles
  = overlay_loop files workingFiles.
Proof.
  rewrite !overlay_loop_replace_or_append.
  induction workingFiles as [| x xs IH] using rev_ind; [done |].
  rewrite !fold_left_app. simpl.
  set (merged := fold_left replace_or_append xs files) in *.
  assert (forall w, w ∈ xs -> fileName w ∈ fileName <$> merged) as Hall.
  { intros w Hw. apply fold_replace_or_append_names, list_elem_of_fmap.
    by exists w. }
  destruct (decide (fileName x ∈ fileName <$> xs)) as [Hin | Hout].
  - rewrite fold_replace_or_append_overwritten;
      [by rewrite IH | by apply fold_replace_or_append_names | done].
  - rewrite fold_replace_or_append_delayed by done.
    rewrite IH. by rewrite replace_or_append_absorb.
Qed.

(** ** Queries *)

Section QueryEdges.

Context (E : Env).

(** A first fetch whose log is missing, or has no [more] of its own, gives
    a result that no number of [more] calls changes.  With a missing log
    that result has no entries, reports [hasMore], and keeps its [more]: it
    never becomes exhausted. *)
Theorem getCommitsQuery_no_continuation (n : CompareBranchNode) (w : World)
    (range : string) (limit : option Z) (limits : list (option Z))
    (next_limit : option Z) :
  getLog E (uri_repoPath n) limit range ≫= log_more = None ->
  let first := fst (getCommitsQuery E range limit (n, w)) in
  more_calls limits first = first
  /\ (getLog E (uri_repoPath n) limit range = None ->
        entries first = [] /\ hasMore first = true
        /\ call_more next_limit first = Some first).
Proof.
  intros Hnone first.
  assert (forall lim, more_body lim first = first) as Hstep.
  { intros lim. subst first. unfold more_body, getCommitsQuery, git_getLog.
    run_method. cbn.
    destruct (getLog E (uri_repoPath n) limit range) as [l |]; cbn in *;
      [| done].
    by rewrite Hnone. }
  split.
  - unfold more_calls. induction limits as [| lim limits IH]; [done |].
    simpl. by rewrite Hstep.
  - intros Hlog. subst first.
    unfold call_more, entries. rewrite <- (Hstep next_limit) at 4.
    unfold getCommitsQuery, git_getLog. run_method. cbn. by rewrite Hlog.
Qed.

(** The files queries only read.  Neither changes the node, the store or
    the allocator.  The behind query asks git once, for
    [branch.ref...compareWith], and returns the answer as it is in every
    mode.  The ahead query asks for [compareWith...branch.ref]; outside
    working-tree mode that is its only call and its answer is returned as
    it is, and in working-tree mode it then asks for the status against
    [HEAD]. *)
Theorem files_queries_read_only (n : CompareBranchNode) (w : World) :
  let side := Js.or_string (compareWith_ref n) "HEAD" in
  let ahead_range :=
    createRange E side (Js.or_string (Some (branch_ref (branch n))) "HEAD")
      ThreeDot in
  let behind_range := createRange E (branch_ref (branch n)) side ThreeDot in
  let a := getAheadFilesQuery E (n, w) in
  let b := getBehindFilesQuery E (n, w) in
  (fst (snd a) = n
   /\ workspaceState (snd (snd a)) = workspaceState w
   /\ next_addr (snd (snd a)) = next_addr w
   /\ trace (snd (snd a))
      = trace w ++ GetDiffStatus (repoPath n) ahead_range
          :: (if compareWithWorkingTree n
              then [GetDiffStatus (repoPath n) "HEAD"] else [])
   /\ (compareWithWorkingTree n = false ->
         result_files (fst a) = getDiffStatus E (repoPath n) ahead_range))
  /\ (fst (snd b) = n
      /\ workspaceState (snd (snd b)) = workspaceState w
      /\ next_addr (snd (snd b)) = next_addr w
      /\ trace (snd (snd b))
         = trace w ++ [GetDiffStatus (uri_repoPath n) behind_range]
      /\ result_files (fst b)
         = getDiffStatus E (uri_repoPath n) behind_range).
Proof.
  unfold getAheadFilesQuery, getBehindFilesQuery, git_getDiffStatus.
  run_method. split.
  - destruct (compareWithWorkingTree n); cbn; repeat split;
      try done; by rewrite <- app_assoc.
  - cbn. by repeat split.
Qed.

End QueryEdges.

Lemma getCommitsQuery_no_continuation_witness :
  let first :=
    fst (getCommitsQuery Scenarios.env_silent "main..feature" (Some 10)
           (Examples.node, Examples.world)) in
  more_calls [Some 10; None] first = first
  /\ entries first = [] /\ hasMore first = true
  /\ call_more (Some 10) first = Some first.
Proof.
  intros first.
  destruct (getCommitsQuery_no_continuation Scenarios.env_silent Examples.node
              Examples.world "main..feature" (Some 10) [Some 10; None]
              (Some 10) eq_refl) as [Hstable Hmissing].
  split; [exact Hstable | exact (Hmissing eq_refl)].
Defined.

(** ** Construction *)

Section Construction.

Context (mode_value : ViewShowBranchComparison -> string).


End Construction.

